(** * The vote ledger of the voting widget

    A shallow embedding of the data-access module ([getDb], [getAllCandidates],
    [hasVoted], [addVote], [initializeCandidates]), of the two tables it works
    on (drizzle/schema.ts and its migration) and of the [voting] router
    (server/routers.ts), followed by the properties of the ledger.

    Every store access of the source is an [await]ed statement that either
    answers or throws. The functions thread the process state and the store
    through these statements in program order, in a state-and-exception
    monad; which statements fail is part of the world the functions run in.
    A second, small model ([Interleaved]) lets the statements of several
    calls of [addVote] take turns. *)

From Stdlib Require Import ZArith List String Ascii Bool Lia DecimalString.
Import ListNotations.
Local Open Scope Z_scope.

(* ------------------------------------------------------------------ *)
(** ** drizzle/schema.ts: the two tables *)

(** [candidates]: id (auto-increment primary key), name, votes (default 0).
    The [createdAt] column is filled by the store ([defaultNow]) and is never
    read or written by the ledger; rows are kept without it. *)
Module Candidate.
Record t : Type := mk { id : Z; name : string; votes : Z }.

Definition set_votes (n : Z) (c : t) : t :=
  {| id := id c; name := name c; votes := n |}.
End Candidate.

(** [votes]: id (auto-increment primary key), candidateId (references
    candidates.id), voterIdentifier. No uniqueness constraint is declared on
    voterIdentifier, neither in the schema nor in the migration. *)
Module Vote.
Record t : Type := mk { id : Z; candidateId : Z; voterIdentifier : string }.
End Vote.

(** The persistent store: the rows of both tables in insertion order and the
    AUTO_INCREMENT counter of each. *)
Record Store : Type := mkStore {
  candidates : list Candidate.t;
  votes : list Vote.t;
  candidates_auto : Z;
  votes_auto : Z
}.

Definition empty_store : Store :=
  {| candidates := []; votes := []; candidates_auto := 1; votes_auto := 1 |}.

(** What the statements below ask of the store and do to it. *)

(** A candidate with this id exists. *)
Definition has_candidate (cid : Z) (s : Store) : bool :=
  existsb (fun c => Candidate.id c =? cid) (candidates s).

(** The voter identifier has a row in [votes]. *)
Definition voted (v : string) (s : Store) : bool :=
  existsb (fun r => String.eqb (Vote.voterIdentifier r) v) (votes s).

(** The store with one more vote row: the row gets the next id. *)
Definition with_vote (cid : Z) (v : string) (s : Store) : Store :=
  {| candidates := candidates s;
     votes := votes s ++ [Vote.mk (votes_auto s) cid v];
     candidates_auto := candidates_auto s;
     votes_auto := votes_auto s + 1 |}.

(** The store with [votes] set to [n] in every candidate row with id [cid]. *)
Definition with_count (cid : Z) (n : Z) (s : Store) : Store :=
  {| candidates :=
       map (fun c => if Candidate.id c =? cid then Candidate.set_votes n c
                     else c) (candidates s);
     votes := votes s;
     candidates_auto := candidates_auto s;
     votes_auto := votes_auto s |}.

(** The rows one multi-row insert appends: consecutive ids, votes at the
    column default 0. *)
Fixpoint fresh_candidates (next : Z) (names : list string)
  : list Candidate.t :=
  match names with
  | [] => []
  | n :: rest => Candidate.mk next n 0 :: fresh_candidates (next + 1) rest
  end.

(** The store with one candidate row more for each name. *)
Definition with_candidates (names : list string) (s : Store) : Store :=
  {| candidates := candidates s ++ fresh_candidates (candidates_auto s) names;
     votes := votes s;
     candidates_auto := candidates_auto s + Z.of_nat (List.length names);
     votes_auto := votes_auto s |}.

(* ------------------------------------------------------------------ *)
(** ** Errors and results *)

(** What the driver can answer a statement with instead of a result: the
    foreign key of [votes.candidateId] has no referenced row, a value is
    longer than its column, or the store did not answer (connection lost,
    timeout, statement refused for a reason outside the application). *)
Inductive SqlError : Type :=
| ER_NO_REFERENCED_ROW
| ER_DATA_TOO_LONG
| ER_STORE_FAILURE.

(** What the data-access functions can throw: a JavaScript [Error] made by the
    module itself; an error of the driver; or the error drizzle makes of a
    failed statement of the ledger, which keeps the text of the statement,
    the parameters it was sent with and the driver's error as its cause. *)
Inductive Err : Type :=
| JsError (message : string)
| DriverError (e : SqlError)
| DrizzleQueryError (query : string) (params : list string)
                    (cause : SqlError).

Inductive Result (E A : Type) : Type :=
| Ok (a : A)
| Throw (e : E).
Arguments Ok {E A} a.
Arguments Throw {E A} e.

(* ------------------------------------------------------------------ *)
(** ** The process and its environment *)

(** The handle [drizzle(url)] returns. *)
Inductive Db : Type := Drizzle (url : string).

(** The statements the module sends to the store. *)
Inductive Stmt : Type :=
| SelectCandidates
| SelectVotesWhereVoter (voterIdentifier : string)
| InsertVote (candidateId : Z) (voterIdentifier : string)
| SelectCandidateWhereId (candidateId : Z)
| UpdateCandidateVotes (candidateId : Z) (votes : Z)
| InsertCandidates (names : list string).

(** [DATABASE_URL] is [process.env.DATABASE_URL]; [drizzle_throws] says whether
    [drizzle(url)] throws; [_db] is the module-level handle; [faults] is the
    fate of the statements still to come, in order ([true]: the statement
    throws and has no effect; past the end of the list every statement is
    answered); [trace] records the statements sent, newest first. *)
Record World : Type := mkWorld {
  DATABASE_URL : option string;
  drizzle_throws : bool;
  _db : option Db;
  store : Store;
  faults : list bool;
  trace : list Stmt
}.

Definition set_db (d : option Db) (w : World) : World :=
  {| DATABASE_URL := DATABASE_URL w; drizzle_throws := drizzle_throws w;
     _db := d; store := store w; faults := faults w; trace := trace w |}.

Definition set_store (s : Store) (w : World) : World :=
  {| DATABASE_URL := DATABASE_URL w; drizzle_throws := drizzle_throws w;
     _db := _db w; store := s; faults := faults w; trace := trace w |}.

Definition sent (q : Stmt) (w : World) : World :=
  {| DATABASE_URL := DATABASE_URL w; drizzle_throws := drizzle_throws w;
     _db := _db w; store := store w; faults := tl (faults w);
     trace := q :: trace w |}.

(** A number as a template literal prints it (the ids and counts of the
    ledger are integers far below 10^21, which print in decimal). *)
Definition decimal (z : Z) : string := NilZero.string_of_int (Z.to_int z).

(** [list.join(separator)] *)
Fixpoint join (separator : string) (l : list string) : string :=
  match l with
  | [] => EmptyString
  | [x] => x
  | x :: rest => (x ++ separator ++ join separator rest)%string
  end.

(** The text of a statement as drizzle sends it, values replaced by
    placeholders, and the parameters that go with it. *)
Definition sql (q : Stmt) : string :=
  match q with
  | SelectCandidates =>
      "select `id`, `name`, `votes`, `createdAt` from `candidates`"
  | SelectVotesWhereVoter _ =>
      "select `id`, `candidateId`, `voterIdentifier`, `createdAt` from `votes` where `votes`.`voterIdentifier` = ? limit ?"
  | InsertVote _ _ =>
      "insert into `votes` (`id`, `candidateId`, `voterIdentifier`, `createdAt`) values (default, ?, ?, default)"
  | SelectCandidateWhereId _ =>
      "select `id`, `name`, `votes`, `createdAt` from `candidates` where `candidates`.`id` = ? limit ?"
  | UpdateCandidateVotes _ _ =>
      "update `candidates` set `votes` = ? where `candidates`.`id` = ?"
  | InsertCandidates names =>
      ("insert into `candidates` (`id`, `name`, `votes`, `createdAt`) values "
       ++ join ", " (map (fun _ => "(default, ?, default, default)") names))
  end%string.

Definition params (q : Stmt) : list string :=
  match q with
  | SelectCandidates => []
  | SelectVotesWhereVoter v => [v; decimal 1]
  | InsertVote cid v => [decimal cid; v]
  | SelectCandidateWhereId cid => [decimal cid; decimal 1]
  | UpdateCandidateVotes cid n => [decimal n; decimal cid]
  | InsertCandidates names => names
  end.

(** The error a failed statement throws. *)
Definition failed (q : Stmt) (cause : SqlError) : Err :=
  DrizzleQueryError (sql q) (params q) cause.

(** State and exceptions: a computation runs in a world and either returns or
    throws; what it did to the world before throwing stays done (the module
    opens no transaction). *)
Definition M (E A : Type) : Type := World -> Result E A * World.

Definition ret {E A} (a : A) : M E A := fun w => (Ok a, w).

Definition throw {E A} (e : E) : M E A := fun w => (Throw e, w).

Definition bind {E A B} (m : M E A) (k : A -> M E B) : M E B :=
  fun w =>
    match m w with
    | (Ok a, w') => k a w'
    | (Throw e, w') => (Throw e, w')
    end.

Definition try_catch {E F A} (m : M E A) (handler : E -> M F A) : M F A :=
  fun w =>
    match m w with
    | (Ok a, w') => (Ok a, w')
    | (Throw e, w') => handler e w'
    end.

Declare Scope ledger_scope.
Delimit Scope ledger_scope with ledger.
Notation "x <- m ;; k" := (bind m (fun x => k))
  (at level 100, m at next level, right associativity) : ledger_scope.
Notation "m ;; k" := (bind m (fun _ => k))
  (at level 100, right associativity) : ledger_scope.
Notation "'try' m 'catch' h" := (try_catch m h)
  (at level 100, m at level 100, h at level 0) : ledger_scope.
Local Open Scope ledger_scope.

(* ------------------------------------------------------------------ *)
(** ** The statements on the store *)

Definition next_fault (w : World) : bool :=
  match faults w with
  | b :: _ => b
  | [] => false
  end.

(** One awaited statement: it is sent, then it throws or the store runs it. *)
Definition statement {A} (q : Stmt) (run : Store -> Result SqlError A * Store)
  : M Err A :=
  fun w =>
    if next_fault w then (Throw (failed q ER_STORE_FAILURE), sent q w)
    else
      match run (store w) with
      | (Ok a, s) => (Ok a, set_store s (sent q w))
      | (Throw e, s) => (Throw (failed q e), set_store s (sent q w))
      end.

(** [db.select().from(candidates)] *)
Definition select_candidates (db : Db) : M Err (list Candidate.t) :=
  statement SelectCandidates (fun s => (Ok (candidates s), s)).

(** [db.select().from(votes).where(eq(votes.voterIdentifier, v)).limit(1)] *)
Definition select_votes_where_voter (db : Db) (v : string)
  : M Err (list Vote.t) :=
  statement (SelectVotesWhereVoter v) (fun s =>
    (Ok (firstn 1 (filter (fun r => String.eqb (Vote.voterIdentifier r) v)
                          (votes s))), s)).

(** [varchar("voterIdentifier", { length: 255 })]: the characters the column
    holds (a string is read as the sequence of its characters). *)
Definition voterIdentifier_length : nat := 255.

(** [db.insert(votes).values({candidateId, voterIdentifier})]: the row gets
    the next id; the store refuses it when [voterIdentifier] is longer than
    its column (the strict mode of the store, its default), and when
    [candidateId] references no candidate (the foreign key of the
    migration). *)
Definition insert_vote (db : Db) (cid : Z) (v : string) : M Err unit :=
  statement (InsertVote cid v) (fun s =>
    if (voterIdentifier_length <? String.length v)%nat
    then (Throw ER_DATA_TOO_LONG, s)
    else if has_candidate cid s then (Ok tt, with_vote cid v s)
    else (Throw ER_NO_REFERENCED_ROW, s)).

(** [db.select().from(candidates).where(eq(candidates.id, cid)).limit(1)] *)
Definition select_candidate_where_id (db : Db) (cid : Z)
  : M Err (list Candidate.t) :=
  statement (SelectCandidateWhereId cid) (fun s =>
    (Ok (firstn 1 (filter (fun c => Candidate.id c =? cid) (candidates s))),
     s)).

(** [db.update(candidates).set({votes: n}).where(eq(candidates.id, cid))] *)
Definition update_candidate_votes (db : Db) (cid : Z) (n : Z) : M Err unit :=
  statement (UpdateCandidateVotes cid n) (fun s =>
    (Ok tt, with_count cid n s)).

(** [db.insert(candidates).values(list)]: one statement, all rows or none,
    with consecutive ids and [votes] at the column default 0. *)
Definition insert_candidates (db : Db) (names : list string) : M Err unit :=
  statement (InsertCandidates names) (fun s =>
    (Ok tt, with_candidates names s)).

(* ------------------------------------------------------------------ *)
(** ** server/db.ts *)

(** JavaScript truthiness of an environment variable: set and not empty. *)
Definition truthy (v : option string) : option string :=
  match v with
  | Some EmptyString => None
  | other => other
  end.

(** [getDb]: create the handle on first use; a failure to create it leaves
    [_db] null. *)
Definition getDb {E} : M E (option Db) :=
  fun w =>
    match _db w with
    | Some db => (Ok (Some db), w)
    | None =>
        match truthy (DATABASE_URL w) with
        | Some url =>
            if drizzle_throws w then (Ok None, set_db None w)
            else (Ok (Some (Drizzle url)), set_db (Some (Drizzle url)) w)
        | None => (Ok None, w)
        end
    end.

Definition getAllCandidates : M Err (list Candidate.t) :=
  db <- getDb ;;
  match db with
  | None => ret []
  | Some db =>
      try (result <- select_candidates db ;; ret result)
      catch (fun _ => ret [])
  end.

Definition hasVoted (voterIdentifier : string) : M Err bool :=
  db <- getDb ;;
  match db with
  | None => ret false
  | Some db =>
      try (result <- select_votes_where_voter db voterIdentifier ;;
           ret (0 <? Z.of_nat (List.length result)))
      catch (fun _ => ret false)
  end.

Definition already_voted_message : string := "This device has already voted".

Definition addVote (candidateId : Z) (voterIdentifier : string)
  : M Err bool :=
  db <- getDb ;;
  match db with
  | None => ret false
  | Some db =>
      try (alreadyVoted <- hasVoted voterIdentifier ;;
           (if alreadyVoted : bool then throw (JsError already_voted_message)
            else ret tt) ;;
           insert_vote db candidateId voterIdentifier ;;
           candidate <- select_candidate_where_id db candidateId ;;
           match candidate with
           | c0 :: _ =>
               update_candidate_votes db candidateId (Candidate.votes c0 + 1)
           | [] => ret tt
           end ;;
           ret true)
      catch (fun error => throw error)
  end.

Definition candidatesList : list string :=
  [ "د أحمد حفظي";
    "مهندس أحمد سامي";
    "أ. أشرف الشبراوي";
    "لواء. سامح عبد الفتاح";
    "أ.د مكرم رضوان" ]%string.

Definition initializeCandidates : M Err unit :=
  db <- getDb ;;
  match db with
  | None => ret tt
  | Some db =>
      try (existingCandidates <- select_candidates db ;;
           match existingCandidates with
           | _ :: _ => ret tt
           | [] => insert_candidates db candidatesList
           end)
      catch (fun _ => ret tt)
  end.

(* ------------------------------------------------------------------ *)
(** ** server/routers.ts: the [voting] router *)

(** [haystack.includes(needle)] *)
Fixpoint includes (needle haystack : string) : bool :=
  if String.prefix needle haystack then true
  else
    match haystack with
    | EmptyString => false
    | String _ rest => includes needle rest
    end.

Definition newline : string := String (ascii_of_nat 10) EmptyString.

(** [error.message]. The module's own errors carry the message they were made
    with and the driver's errors a text of the driver; the message of a
    failed statement quotes the statement and, joined by commas, its
    parameters, whatever the cause. *)
Definition error_message (e : Err) : string :=
  match e with
  | JsError m => m
  | DriverError ER_NO_REFERENCED_ROW =>
      "Cannot add or update a child row: a foreign key constraint fails"
  | DriverError ER_DATA_TOO_LONG => "Data too long for column"
  | DriverError ER_STORE_FAILURE => "Connection lost"
  | DrizzleQueryError query params _ =>
      "Failed query: " ++ query ++ newline ++ "params: " ++ join "," params
  end%string.

(** A JSON number as the input parser sees it: an integer, or anything else
    (a fraction, NaN, an infinity). *)
Inductive number : Type :=
| Integer (z : Z)
| NonInteger.

Inductive ZodIssueCode : Type := invalid_type | too_small | too_big.

(** [Number.MAX_SAFE_INTEGER], 2^53 - 1. *)
Definition MAX_SAFE_INTEGER : Z := 9007199254740991.

Record ZodIssue : Type := mkIssue { issue_code : ZodIssueCode; path : string }.

Inductive TRPC_ERROR_CODE : Type := BAD_REQUEST | INTERNAL_SERVER_ERROR.

(** What a procedure throws to its caller: the input parser's rejection (code
    BAD_REQUEST, the cause being the list of issues) or a [TRPCError] with a
    code and a message. *)
Inductive TRPCError : Type :=
| InputParseError (issues : list ZodIssue)
| ProcedureError (code : TRPC_ERROR_CODE) (message : string).

(** [publicProcedure.input(schema).query(resolver)] (or [.mutation]): the
    input is parsed first and the resolver runs on the parsed value only. *)
Definition procedure {I V O} (parse : I -> Result (list ZodIssue) V)
    (resolver : V -> M TRPCError O) (input : I) : M TRPCError O :=
  match parse input with
  | Throw issues => throw (InputParseError issues)
  | Ok v => resolver v
  end.

(** An error a resolver lets escape reaches the caller as
    INTERNAL_SERVER_ERROR. *)
Definition uncaught {A} (m : M Err A) : M TRPCError A :=
  try m
  catch (fun e => throw (ProcedureError INTERNAL_SERVER_ERROR
                                        (error_message e))).

Module voting.

Record HasVotedInput : Type := mkHasVotedInput { hv_voterIdentifier : string }.

Record VoteInput : Type :=
  mkVoteInput { candidateId : number; voterIdentifier : string }.

Record VoteOutput : Type :=
  mkVoteOutput { success : bool; out_candidates : list Candidate.t }.

(** [z.object({ voterIdentifier: z.string() })] *)
Definition parse_hasVoted (i : HasVotedInput)
  : Result (list ZodIssue) string :=
  Ok (hv_voterIdentifier i).

(** [z.number().int().positive()]: [int] takes the safe integers only, from
    -(2^53 - 1) to 2^53 - 1, and [positive] those above 0. *)
Definition candidateId_issues (n : number) : list ZodIssue :=
  match n with
  | NonInteger => [mkIssue invalid_type "candidateId"]
  | Integer z =>
      (if MAX_SAFE_INTEGER <? z then [mkIssue too_big "candidateId"]
       else if z <? - MAX_SAFE_INTEGER then [mkIssue too_small "candidateId"]
       else [])
      ++ (if 0 <? z then [] else [mkIssue too_small "candidateId"])
  end.

(** [z.string().min(1)] *)
Definition voterIdentifier_issues (s : string) : list ZodIssue :=
  if (1 <=? String.length s)%nat then []
  else [mkIssue too_small "voterIdentifier"].

(** [z.object({ candidateId: ..., voterIdentifier: ... })] *)
Definition parse_vote (i : VoteInput) : Result (list ZodIssue) (Z * string) :=
  match candidateId i,
        candidateId_issues (candidateId i)
          ++ voterIdentifier_issues (voterIdentifier i) with
  | Integer z, [] => Ok (z, voterIdentifier i)
  | _, issues => Throw issues
  end.

Definition duplicate_message : string := "هذا الجهاز قد قام بالتصويت بالفعل".

Definition failure_message : string := "فشل التصويت، يرجى المحاولة مرة أخرى".

Definition getCandidates : M TRPCError (list Candidate.t) :=
  uncaught (initializeCandidates ;; getAllCandidates).

Definition hasVoted : HasVotedInput -> M TRPCError bool :=
  procedure parse_hasVoted (fun v => uncaught (hasVoted v)).

Definition vote : VoteInput -> M TRPCError VoteOutput :=
  procedure parse_vote (fun input =>
    try (addVote (fst input) (snd input) ;;
         candidates <- getAllCandidates ;;
         ret (mkVoteOutput true candidates))
    catch (fun error =>
      if includes "already voted" (error_message error)
      then throw (ProcedureError BAD_REQUEST duplicate_message)
      else throw (ProcedureError INTERNAL_SERVER_ERROR failure_message))).

End voting.

(* ------------------------------------------------------------------ *)
(** ** Calls of [addVote] in flight together *)

(** The server takes requests while others wait for the store: between two
    awaited statements of one call of [addVote], statements of other calls
    may run. Here the handle is there, no statement fails and the voter
    identifiers fit their column. *)
Module Interleaved.

(** Where a call stands: before one of its four statements (the update
    already knows the count it will write), or finished. *)
Inductive Pc : Type :=
| BeforeCheck
| BeforeInsert
| BeforeLookup
| BeforeUpdate (n : Z)
| Returned (b : bool)
| Thrown (e : Err).

Record Call : Type :=
  mkCall { candidateId : Z; voterIdentifier : string; pc : Pc }.

Definition start (cid : Z) (v : string) : Call := mkCall cid v BeforeCheck.

Definition at_pc (p : Pc) (c : Call) : Call :=
  mkCall (candidateId c) (voterIdentifier c) p.

(** The next statement of a call, on the store as it is now. *)
Definition step (s : Store) (c : Call) : Store * Call :=
  match pc c with
  | BeforeCheck =>
      if voted (voterIdentifier c) s
      then (s, at_pc (Thrown (JsError already_voted_message)) c)
      else (s, at_pc BeforeInsert c)
  | BeforeInsert =>
      if has_candidate (candidateId c) s
      then (with_vote (candidateId c) (voterIdentifier c) s,
            at_pc BeforeLookup c)
      else (s, at_pc (Thrown (failed (InsertVote (candidateId c)
                                                 (voterIdentifier c))
                                     ER_NO_REFERENCED_ROW)) c)
  | BeforeLookup =>
      match find (fun r => Candidate.id r =? candidateId c)
                 (candidates s) with
      | Some c0 => (s, at_pc (BeforeUpdate (Candidate.votes c0 + 1)) c)
      | None => (s, at_pc (Returned true) c)
      end
  | BeforeUpdate n =>
      (with_count (candidateId c) n s, at_pc (Returned true) c)
  | Returned _ => (s, c)
  | Thrown _ => (s, c)
  end.

(** The call at position [n] runs its next statement. *)
Fixpoint step_nth (n : nat) (s : Store) (calls : list Call)
  : Store * list Call :=
  match calls, n with
  | [], _ => (s, [])
  | c :: rest, O => let (s', c') := step s c in (s', c' :: rest)
  | c :: rest, S m =>
      let (s', rest') := step_nth m s rest in (s', c :: rest')
  end.

(** The calls run their statements in the order the schedule names them. *)
Fixpoint run (schedule : list nat) (s : Store) (calls : list Call)
  : Store * list Call :=
  match schedule with
  | [] => (s, calls)
  | n :: later =>
      let (s', calls') := step_nth n s calls in run later s' calls'
  end.

(** What a finished call of [addVote] left in [pc]. *)
Definition finished (r : Result Err bool) : Pc :=
  match r with
  | Ok b => Returned b
  | Throw e => Thrown e
  end.

End Interleaved.

(* ------------------------------------------------------------------ *)
(** ** Vocabulary of the properties *)

(** *** The process *)

(** The handle [getDb] answers with in a world. *)
Definition handle (w : World) : option Db :=
  match _db w with
  | Some db => Some db
  | None =>
      match truthy (DATABASE_URL w) with
      | Some url => if drizzle_throws w then None else Some (Drizzle url)
      | None => None
      end
  end.

Definition available (w : World) : bool :=
  match handle w with
  | Some _ => true
  | None => false
  end.

(** Whether the [n]-th statement to come fails. *)
Definition fault_at (n : nat) (w : World) : bool := nth n (faults w) false.

(** No statement to come fails. *)
Definition no_faults (w : World) : bool := forallb negb (faults w).

(** From [w] to [w']: the handle [getDb] answers with is the same, and a
    store without faults to come still has none. *)
Definition settled (w w' : World) : Prop :=
  handle w' = handle w /\ (no_faults w = true -> no_faults w' = true).

Definition stable {E A} (m : M E A) : Prop :=
  forall w, settled w (snd (m w)).

(** Calls in a row, each in the world the previous one left. *)
Fixpoint in_a_row {E A} (calls : list (M E A)) (w : World)
  : list (Result E A) * World :=
  match calls with
  | [] => ([], w)
  | m :: rest =>
      let (r, w1) := m w in
      let (rs, w2) := in_a_row rest w1 in
      (r :: rs, w2)
  end.

Definition succeeded {E A} (r : Result E A) : bool :=
  match r with
  | Ok _ => true
  | Throw _ => false
  end.

(** *** The store *)

(** The rows of [votes] of one voter identifier, and of one candidate. *)
Definition rows_of_voter (v : string) (s : Store) : list Vote.t :=
  filter (fun r => String.eqb (Vote.voterIdentifier r) v) (votes s).

Definition rows_of_candidate (cid : Z) (s : Store) : list Vote.t :=
  filter (fun r => Vote.candidateId r =? cid) (votes s).

(** At most one row per voter identifier. *)
Definition one_vote (s : Store) : Prop :=
  forall v, (List.length (rows_of_voter v s) <= 1)%nat.

(** Every candidate's counter is the number of rows that reference it. *)
Definition tally_consistent (s : Store) : Prop :=
  forall c, In c (candidates s) ->
    Candidate.votes c
    = Z.of_nat (List.length (rows_of_candidate (Candidate.id c) s)).

(** The primary key of [candidates]. *)
Definition primary_key (s : Store) : Prop :=
  NoDup (map Candidate.id (candidates s)).

(** The counter of candidate [cid] goes up by one, nothing else changes. *)
Definition count_vote (cid : Z) (l : list Candidate.t) : list Candidate.t :=
  map (fun c => if Candidate.id c =? cid
                then Candidate.set_votes (Candidate.votes c + 1) c else c) l.

(** *** Casting a vote *)

(** The voter identifier fits the column of [votes]. *)
Definition fits_column (v : string) : bool :=
  (String.length v <=? voterIdentifier_length)%nat.

(** [int("id")]: the largest id the columns hold, and a store whose
    candidate ids are among them. *)
Definition INT_MAX : Z := 2147483647.

Definition int_ids (s : Store) : Prop :=
  forall c, In c (candidates s) -> Candidate.id c <= INT_MAX.

(** [addVote] read off statement by statement: what it returns or throws and
    the store it leaves, by the handle, the fate of its four statements, the
    length of the voter identifier and the rows it finds. *)
Definition addVote_outcome (cid : Z) (v : string) (w : World)
  : Result Err bool * Store :=
  let s := store w in
  match handle w with
  | None => (Ok false, s)
  | Some _ =>
      if negb (fault_at 0 w) && voted v s
      then (Throw (JsError already_voted_message), s)
      else if fault_at 1 w
      then (Throw (failed (InsertVote cid v) ER_STORE_FAILURE), s)
      else if negb (fits_column v)
      then (Throw (failed (InsertVote cid v) ER_DATA_TOO_LONG), s)
      else if negb (has_candidate cid s)
      then (Throw (failed (InsertVote cid v) ER_NO_REFERENCED_ROW), s)
      else if fault_at 2 w
      then (Throw (failed (SelectCandidateWhereId cid) ER_STORE_FAILURE),
            with_vote cid v s)
      else
        match find (fun c => Candidate.id c =? cid) (candidates s) with
        | None => (Ok true, with_vote cid v s)
        | Some c0 =>
            if fault_at 3 w
            then (Throw (failed (UpdateCandidateVotes cid
                                   (Candidate.votes c0 + 1))
                                ER_STORE_FAILURE),
                  with_vote cid v s)
            else (Ok true,
                  with_count cid (Candidate.votes c0 + 1) (with_vote cid v s))
        end
  end.

(** The error the router throws for an error of [addVote]. *)
Definition boundary_error (e : Err) : TRPCError :=
  if includes "already voted" (error_message e)
  then ProcedureError BAD_REQUEST voting.duplicate_message
  else ProcedureError INTERNAL_SERVER_ERROR voting.failure_message.

(** What the caller of [voting.vote] sees for a voter who has already voted. *)
Definition duplicate_vote_error : TRPCError :=
  ProcedureError BAD_REQUEST voting.duplicate_message.

(** What the caller of [voting.vote] sees for a failure of the resolver that
    the router does not take for a second vote. *)
Definition generic_failure_error : TRPCError :=
  ProcedureError INTERNAL_SERVER_ERROR voting.failure_message.

(** An input the parser of [voting.vote] has an issue with. *)
Definition malformed (i : voting.VoteInput) : Prop :=
  voting.voterIdentifier i = EmptyString
  \/ voting.candidateId i = NonInteger
  \/ exists z, voting.candidateId i = Integer z
                /\ (z <= 0 \/ MAX_SAFE_INTEGER < z).

(** *** Seeding *)

(** The store after [db.insert(candidates).values(candidatesList)]. *)
Definition with_seed (s : Store) : Store := with_candidates candidatesList s.

(** What one call of [initializeCandidates] may do to the store: nothing, or
    seed it if it had no candidate. *)
Definition seed_step (s s' : Store) : Prop :=
  s' = s \/ (candidates s = [] /\ s' = with_seed s).

(** What a call of [voting.getCandidates] may answer when the calls started
    on store [s]: nothing (a degraded read), the candidates of [s], or the
    seed if [s] had no candidate. *)
Definition listed_from (s : Store) (r : Result TRPCError (list Candidate.t))
  : Prop :=
  exists l, r = Ok l
    /\ (l = [] \/ l = candidates s
        \/ (candidates s = []
            /\ l = fresh_candidates (candidates_auto s) candidatesList)).

(** *** Stores and processes of the scenarios *)

(** The store right after seeding: the five candidates and no vote. *)
Definition seeded_store : Store := with_seed empty_store.

(** The seeded store after the voter "v1" voted for candidate 1. *)
Definition store_after_v1 : Store :=
  with_count 1 1 (with_vote 1 "v1" seeded_store).

(** A process that has a [DATABASE_URL], has not yet called [getDb], and
    whose statements fail as [fs] says. *)
Definition boot (s : Store) (fs : list bool) : World :=
  {| DATABASE_URL := Some "mysql://ledger"%string; drizzle_throws := false;
     _db := None; store := s; faults := fs; trace := [] |}.

(** A process without [DATABASE_URL]. *)
Definition boot_without_url (s : Store) : World :=
  {| DATABASE_URL := None; drizzle_throws := false;
     _db := None; store := s; faults := []; trace := [] |}.

(** The world after the first [voting.getCandidates] of a process started on
    the empty store. *)
Definition seeded_world : World :=
  {| DATABASE_URL := Some "mysql://ledger"%string; drizzle_throws := false;
     _db := Some (Drizzle "mysql://ledger");
     store := seeded_store; faults := [];
     trace := [SelectCandidates; InsertCandidates candidatesList;
               SelectCandidates] |}.

(** A voter identifier of 256 characters, one more than the column holds. *)
Definition identifier_of_256 : string :=
  string_of_list_ascii (repeat "x"%char 256).

(** The process of [seeded_world] after "v1" voted for candidate 1, with the
    next statement about to fail. *)
Definition world_after_v1_failing_read : World :=
  {| DATABASE_URL := Some "mysql://ledger"%string; drizzle_throws := false;
     _db := Some (Drizzle "mysql://ledger");
     store := store_after_v1; faults := [true];
     trace := [] |}.

(** A process started on the empty store in which the ninth statement, the
    existence read of the second vote below, fails. *)
Definition world_ninth_statement_fails : World :=
  boot empty_store (repeat false 8 ++ [true]).

(** List the candidates, then vote twice for candidate 1 as "v1". *)
Definition list_then_vote_twice (w : World)
  : (Result TRPCError voting.VoteOutput * Result TRPCError voting.VoteOutput)
    * World :=
  let w1 := snd (voting.getCandidates w) in
  let (r1, w2) := voting.vote (voting.mkVoteInput (Integer 1) "v1") w1 in
  let (r2, w3) := voting.vote (voting.mkVoteInput (Integer 1) "v1") w2 in
  ((r1, r2), w3).


(* ------------------------------------------------------------------ *)
(** ** Requests to the [voting] router *)

(** A request to one of the three procedures. *)
Inductive Request : Type :=
| GetCandidates
| HasVoted (input : voting.HasVotedInput)
| CastVote (input : voting.VoteInput).

(** The world a request leaves. *)
Definition serve (r : Request) (w : World) : World :=
  match r with
  | GetCandidates => snd (voting.getCandidates w)
  | HasVoted input => snd (voting.hasVoted input w)
  | CastVote input => snd (voting.vote input w)
  end.

(** Requests served one after the other. *)
Definition serve_all (rs : list Request) (w : World) : World :=
  fold_left (fun w' r => serve r w') rs w.

(** What one request may do to the store: nothing; seed it, if it had no
    candidate; add a vote row for a candidate that exists, with or without
    writing the count of that candidate, read from one of its rows, plus
    one. *)
Definition store_step (s s' : Store) : Prop :=
  s' = s
  \/ (candidates s = [] /\ s' = with_seed s)
  \/ exists cid v,
       has_candidate cid s = true
       /\ (s' = with_vote cid v s
           \/ exists c0,
                In c0 (candidates s) /\ Candidate.id c0 = cid
                /\ s' = with_count cid (Candidate.votes c0 + 1)
                                   (with_vote cid v s)).

(** What the schema promises of a store: the primary keys are unique,
    positive and below the AUTO_INCREMENT counters, every vote references a
    candidate, and no count is negative. *)
Record well_formed (s : Store) : Prop := mkWellFormed {
  wf_candidate_ids : NoDup (map Candidate.id (candidates s));
  wf_candidate_range :
    forall c, In c (candidates s) -> 0 < Candidate.id c < candidates_auto s;
  wf_vote_ids : NoDup (map Vote.id (votes s));
  wf_vote_range :
    forall r, In r (votes s) -> 0 < Vote.id r < votes_auto s;
  wf_foreign_key :
    forall r, In r (votes s) -> has_candidate (Vote.candidateId r) s = true;
  wf_counts : forall c, In c (candidates s) -> 0 <= Candidate.votes c;
  wf_auto : 0 < candidates_auto s /\ 0 < votes_auto s
}.


(* ------------------------------------------------------------------ *)
(** ** Calls of [initializeCandidates] in flight together *)

(** As [Interleaved], for the two statements of [initializeCandidates]: the
    handle is there and no statement fails. *)
Module SeedingInFlight.

(** Where a call stands: before the select, before the insert (the select
    found no candidate), or finished. *)
Inductive Pc : Type :=
| BeforeSelect
| BeforeInsert
| Finished.

(** The next statement of a call, on the store as it is now. *)
Definition step (s : Store) (p : Pc) : Store * Pc :=
  match p with
  | BeforeSelect =>
      match candidates s with
      | _ :: _ => (s, Finished)
      | [] => (s, BeforeInsert)
      end
  | BeforeInsert => (with_candidates candidatesList s, Finished)
  | Finished => (s, Finished)
  end.

(** The call at position [n] runs its next statement. *)
Fixpoint step_nth (n : nat) (s : Store) (calls : list Pc)
  : Store * list Pc :=
  match calls, n with
  | [], _ => (s, [])
  | p :: rest, O => let (s', p') := step s p in (s', p' :: rest)
  | p :: rest, S m =>
      let (s', rest') := step_nth m s rest in (s', p :: rest')
  end.

(** The calls run their statements in the order the schedule names them. *)
Fixpoint run (schedule : list nat) (s : Store) (calls : list Pc)
  : Store * list Pc :=
  match schedule with
  | [] => (s, calls)
  | n :: later =>
      let (s', calls') := step_nth n s calls in run later s' calls'
  end.

End SeedingInFlight.

(* ------------------------------------------------------------------ *)
(** ** The [users] table and its two functions (server/db.ts) *)

Module Users.

(** [mysqlEnum("role", ["user", "admin"])] *)
Inductive Role : Type := user | admin.

(** A row of [users]: id (auto-increment primary key), openId (unique),
    name, email and loginMethod (nullable), role (default "user") and
    lastSignedIn (a time, in milliseconds). The [createdAt] and [updatedAt]
    columns are filled by the store and are never read or written by the
    module; rows are kept without them. *)
Record Row : Type := mkRow {
  id : Z;
  openId : string;
  name : option string;
  email : option string;
  loginMethod : option string;
  role : Role;
  lastSignedIn : Z
}.

(** A property of a JavaScript object: absent ([undefined]) or there. A
    nullable text is there as [None] (null) or as a string. *)
Inductive optional (A : Type) : Type :=
| undefined
| defined (a : A).
Arguments undefined {A}.
Arguments defined {A} a.

(** [InsertUser], the properties [upsertUser] reads. *)
Record InsertUser : Type := mkInsertUser {
  in_openId : string;
  in_name : optional (option string);
  in_email : optional (option string);
  in_loginMethod : optional (option string);
  in_lastSignedIn : optional Z;
  in_role : optional Role
}.

(** [updateSet], the columns to write when the openId is there already. *)
Record UpdateSet : Type := mkUpdateSet {
  set_name : optional (option string);
  set_email : optional (option string);
  set_loginMethod : optional (option string);
  set_lastSignedIn : optional Z;
  set_role : optional Role
}.

(** The statements the two functions send. *)
Inductive Stmt : Type :=
| SelectUserWhereOpenId (openId : string)
| InsertOnDuplicateKeyUpdate (values : InsertUser) (set : UpdateSet).

(** The process of the ledger ([process]: the handle, the fate of the
    statements to come), the [users] table with its AUTO_INCREMENT counter,
    the clock [new Date()] reads, [ENV.ownerOpenId], and the statements
    sent on [users], newest first. *)
Record State : Type := mkState {
  process : World;
  users : list Row;
  users_auto : Z;
  now : Z;
  ownerOpenId : string;
  log : list Stmt
}.

Definition with_process (w : World) (st : State) : State :=
  {| process := w; users := users st; users_auto := users_auto st;
     now := now st; ownerOpenId := ownerOpenId st; log := log st |}.

Definition with_users (l : list Row) (auto : Z) (st : State) : State :=
  {| process := process st; users := l; users_auto := auto;
     now := now st; ownerOpenId := ownerOpenId st; log := log st |}.

(** The clock moved to [t]. *)
Definition at_time (t : Z) (st : State) : State :=
  {| process := process st; users := users st; users_auto := users_auto st;
     now := t; ownerOpenId := ownerOpenId st; log := log st |}.

(** The statement [q] was sent: it is logged and its fate is taken off the
    list of the process. *)
Definition sent (q : Stmt) (st : State) : State :=
  {| process :=
       {| DATABASE_URL := DATABASE_URL (process st);
          drizzle_throws := drizzle_throws (process st);
          _db := _db (process st);
          store := store (process st);
          faults := tl (faults (process st));
          trace := trace (process st) |};
     users := users st; users_auto := users_auto st;
     now := now st; ownerOpenId := ownerOpenId st; log := q :: log st |}.

(** State and exceptions, as for the ledger. *)
Definition M (E A : Type) : Type := State -> Result E A * State.

Definition ret {E A} (a : A) : M E A := fun st => (Ok a, st).

Definition throw {E A} (e : E) : M E A := fun st => (Throw e, st).

Definition bind {E A B} (m : M E A) (k : A -> M E B) : M E B :=
  fun st =>
    match m st with
    | (Ok a, st') => k a st'
    | (Throw e, st') => (Throw e, st')
    end.

Definition try_catch {E F A} (m : M E A) (handler : E -> M F A) : M F A :=
  fun st =>
    match m st with
    | (Ok a, st') => (Ok a, st')
    | (Throw e, st') => handler e st'
    end.

(** A computation of the ledger's process, such as [getDb], run here. *)
Definition lift {E A} (m : World -> Result E A * World) : M E A :=
  fun st => let (r, w) := m (process st) in (r, with_process w st).

(** [new Date()] *)
Definition new_Date {E} : M E Z := fun st => (Ok (now st), st).

Declare Scope users_scope.
Delimit Scope users_scope with users.
Notation "x <- m ;; k" := (bind m (fun x => k))
  (at level 100, m at next level, right associativity) : users_scope.
Notation "m ;; k" := (bind m (fun _ => k))
  (at level 100, right associativity) : users_scope.
Notation "'try' m 'catch' h" := (try_catch m h)
  (at level 100, m at level 100, h at level 0) : users_scope.
Local Open Scope users_scope.

(** One awaited statement on [users]. No caller reads the message of the
    error it throws; the error is kept as the driver's. *)
Definition statement {A} (q : Stmt)
    (run : State -> Result SqlError A * State) : M Err A :=
  fun st =>
    if next_fault (process st)
    then (Throw (DriverError ER_STORE_FAILURE), sent q st)
    else
      match run (sent q st) with
      | (Ok a, st') => (Ok a, st')
      | (Throw e, st') => (Throw (DriverError e), st')
      end.

Definition has_openId (o : string) (l : list Row) : bool :=
  existsb (fun r => String.eqb (openId r) o) l.

(** [value] if the property is there, the column's own value otherwise. *)
Definition or_else {A} (o : optional A) (d : A) : A :=
  match o with
  | undefined => d
  | defined a => a
  end.

(** The row an insert makes of [values]: the next id, and the column default
    for every property that is absent (NULL, "user", the current time). *)
Definition inserted_row (auto : Z) (t : Z) (values : InsertUser) : Row :=
  {| id := auto;
     openId := in_openId values;
     name := or_else (in_name values) None;
     email := or_else (in_email values) None;
     loginMethod := or_else (in_loginMethod values) None;
     role := or_else (in_role values) user;
     lastSignedIn := or_else (in_lastSignedIn values) t |}.

(** The row with the columns of [set] written. *)
Definition updated_row (set : UpdateSet) (r : Row) : Row :=
  {| id := id r;
     openId := openId r;
     name := or_else (set_name set) (name r);
     email := or_else (set_email set) (email r);
     loginMethod := or_else (set_loginMethod set) (loginMethod r);
     role := or_else (set_role set) (role r);
     lastSignedIn := or_else (set_lastSignedIn set) (lastSignedIn r) |}.

(** The table and its counter after an insert with ON DUPLICATE KEY UPDATE:
    the row with this openId, the unique key, is updated if there is one; a
    new row is added otherwise. *)
Definition upserted (values : InsertUser) (set : UpdateSet) (t : Z)
    (l : list Row) (auto : Z) : list Row * Z :=
  if has_openId (in_openId values) l
  then (map (fun r => if String.eqb (openId r) (in_openId values)
                      then updated_row set r else r) l,
        auto)
  else (l ++ [inserted_row auto t values], auto + 1).

(** [db.insert(users).values(values).onDuplicateKeyUpdate({ set })] *)
Definition insert_on_duplicate_key_update (db : Db) (values : InsertUser)
    (set : UpdateSet) : M Err unit :=
  statement (InsertOnDuplicateKeyUpdate values set) (fun st =>
    let (l, auto) :=
      upserted values set (now st) (users st) (users_auto st) in
    (Ok tt, with_users l auto st)).

(** [db.select().from(users).where(eq(users.openId, openId)).limit(1)] *)
Definition select_user_where_openId (db : Db) (o : string)
  : M Err (list Row) :=
  statement (SelectUserWhereOpenId o) (fun st =>
    (Ok (firstn 1 (filter (fun r => String.eqb (openId r) o) (users st))),
     st)).

Definition openId_required_message : string :=
  "User openId is required for upsert".

(** [Object.keys(updateSet).length === 0] *)
Definition no_keys (set : UpdateSet) : bool :=
  match set_name set, set_email set, set_loginMethod set,
        set_lastSignedIn set, set_role set with
  | undefined, undefined, undefined, undefined, undefined => true
  | _, _, _, _, _ => false
  end.

(** [values] and [updateSet] as [upsertUser] builds them, from the user, the
    owner's openId and the time. *)
Definition upsert_role (u : InsertUser) (owner : string) : optional Role :=
  match in_role u with
  | defined r => defined r
  | undefined =>
      if String.eqb (in_openId u) owner then defined admin else undefined
  end.

Definition upsert_values (u : InsertUser) (owner : string) (t : Z)
  : InsertUser :=
  {| in_openId := in_openId u;
     in_name := in_name u;
     in_email := in_email u;
     in_loginMethod := in_loginMethod u;
     in_lastSignedIn :=
       match in_lastSignedIn u with
       | defined d => defined d
       | undefined => defined t
       end;
     in_role := upsert_role u owner |}.

Definition upsert_set (u : InsertUser) (owner : string) (t : Z)
  : UpdateSet :=
  let set :=
    {| set_name := in_name u;
       set_email := in_email u;
       set_loginMethod := in_loginMethod u;
       set_lastSignedIn := in_lastSignedIn u;
       set_role := upsert_role u owner |} in
  if no_keys set
  then {| set_name := undefined; set_email := undefined;
          set_loginMethod := undefined; set_lastSignedIn := defined t;
          set_role := undefined |}
  else set.

(** [ENV.ownerOpenId] *)
Definition ENV_ownerOpenId {E} : M E string :=
  fun st => (Ok (ownerOpenId st), st).

(** The two objects are built from the user, the owner's openId and the
    time; [new Date()] is read once for each, and used where the source
    calls it: for [values] when the user has no lastSignedIn, for the set
    when it has no key. *)
Definition upsertUser (u : InsertUser) : M Err unit :=
  if String.eqb (in_openId u) EmptyString
  then throw (JsError openId_required_message)
  else
    db <- lift getDb ;;
    match db with
    | None => ret tt
    | Some db =>
        try (owner <- ENV_ownerOpenId ;;
             t1 <- new_Date ;;
             t2 <- new_Date ;;
             insert_on_duplicate_key_update db
               (upsert_values u owner t1) (upsert_set u owner t2))
        catch (fun error => throw error)
    end.

Definition getUserByOpenId (o : string) : M Err (option Row) :=
  db <- lift getDb ;;
  match db with
  | None => ret None
  | Some db =>
      result <- select_user_where_openId db o ;;
      ret (match result with
           | r :: _ => Some r
           | [] => None
           end)
  end.

End Users.

(* ------------------------------------------------------------------ *)
(** ** Vocabulary of the properties of [users] *)

(** What the schema promises of [users]: unique openIds, unique ids below
    the counter. *)
Record users_well_formed (l : list Users.Row) (auto : Z) : Prop :=
  mkUsersWellFormed {
    uwf_openIds : NoDup (map Users.openId l);
    uwf_ids : NoDup (map Users.id l);
    uwf_range : forall r, In r l -> Users.id r < auto
  }.

(** The row of an openId, if there is one. *)
Definition user_of (o : string) (l : list Users.Row) : option Users.Row :=
  find (fun r => String.eqb (Users.openId r) o) l.

(** The row [r] carries what the user [u] says, for every property of [u]
    that is there; without a role, the owner is an admin. *)
Definition carries (u : Users.InsertUser) (owner : string) (r : Users.Row)
  : Prop :=
  Users.openId r = Users.in_openId u
  /\ (forall x, Users.in_name u = Users.defined x -> Users.name r = x)
  /\ (forall x, Users.in_email u = Users.defined x -> Users.email r = x)
  /\ (forall x, Users.in_loginMethod u = Users.defined x ->
                Users.loginMethod r = x)
  /\ (forall d, Users.in_lastSignedIn u = Users.defined d ->
                Users.lastSignedIn r = d)
  /\ (forall x, Users.in_role u = Users.defined x -> Users.role r = x)
  /\ (Users.in_role u = Users.undefined -> Users.in_openId u = owner ->
      Users.role r = Users.admin).

(** A state of the scenarios: a process with a handle that no statement
    fails, the clock at 1000, the owner "owner-1". *)
Definition users_state (l : list Users.Row) (auto : Z) : Users.State :=
  {| Users.process := seeded_world; Users.users := l;
     Users.users_auto := auto; Users.now := 1000;
     Users.ownerOpenId := "owner-1"; Users.log := [] |}.

(** A user with an openId and a name, and nothing else. *)
Definition named_user (o n : string) : Users.InsertUser :=
  {| Users.in_openId := o;
     Users.in_name := Users.defined (Some n);
     Users.in_email := Users.undefined;
     Users.in_loginMethod := Users.undefined;
     Users.in_lastSignedIn := Users.undefined;
     Users.in_role := Users.undefined |}.

(** A user with an openId only. *)
Definition bare_user (o : string) : Users.InsertUser :=
  {| Users.in_openId := o;
     Users.in_name := Users.undefined;
     Users.in_email := Users.undefined;
     Users.in_loginMethod := Users.undefined;
     Users.in_lastSignedIn := Users.undefined;
     Users.in_role := Users.undefined |}.

(** The user says nothing but the openId. *)
Definition only_openId (u : Users.InsertUser) : bool :=
  match Users.in_name u, Users.in_email u, Users.in_loginMethod u,
        Users.in_lastSignedIn u, Users.in_role u with
  | Users.undefined, Users.undefined, Users.undefined, Users.undefined,
    Users.undefined => true
  | _, _, _, _, _ => false
  end.

(** The statement [upsertUser] sends for a user in a state. *)
Definition upsert_statement (u : Users.InsertUser) (st : Users.State)
  : Users.Stmt :=
  Users.InsertOnDuplicateKeyUpdate
    (Users.upsert_values u (Users.ownerOpenId st) (Users.now st))
    (Users.upsert_set u (Users.ownerOpenId st) (Users.now st)).

(** The table and the counter after the store accepted that statement. *)
Definition upsert_accepted (u : Users.InsertUser) (st : Users.State)
  : list Users.Row * Z :=
  Users.upserted
    (Users.upsert_values u (Users.ownerOpenId st) (Users.now st))
    (Users.upsert_set u (Users.ownerOpenId st) (Users.now st))
    (Users.now st) (Users.users st) (Users.users_auto st).

(* ------------------------------------------------------------------ *)
(** ** client/src/pages/Home.tsx: what the page asks of the router *)

Module Home.

(** The state of the component: the voter identifier (empty until it is
    known), the id of the candidate card that was clicked, if any, and the
    two flags. *)
Record State : Type := mkState {
  voterIdentifier : string;
  selectedCandidateId : option Z;
  votingComplete : bool;
  error : string
}.

Definition setError (e : string) (st : State) : State :=
  {| voterIdentifier := voterIdentifier st;
     selectedCandidateId := selectedCandidateId st;
     votingComplete := votingComplete st;
     error := e |}.

(** [onClick={() => setSelectedCandidateId(candidate.id)}] on the card of a
    listed candidate. *)
Definition select (c : Candidate.t) (st : State) : State :=
  {| voterIdentifier := voterIdentifier st;
     selectedCandidateId := Some (Candidate.id c);
     votingComplete := votingComplete st;
     error := error st |}.

(** [!!voterIdentifier] *)
Definition identified (st : State) : bool :=
  negb (String.eqb (voterIdentifier st) EmptyString).

(** [!selectedCandidateId], for null and for the number 0. *)
Definition nothing_selected (st : State) : bool :=
  match selectedCandidateId st with
  | None => true
  | Some c => c =? 0
  end.

(** [trpc.voting.hasVoted.useQuery({ voterIdentifier },
    { enabled: !!voterIdentifier })]: the request that goes out, if any. *)
Definition hasVoted_query (st : State) : option voting.HasVotedInput :=
  if identified st then Some (voting.mkHasVotedInput (voterIdentifier st))
  else None.

Definition choose_message : string := "يرجى اختيار مرشح".

(** [handleVote]: the state it leaves and the mutation it starts, if any. *)
Definition handleVote (st : State) : State * option voting.VoteInput :=
  match selectedCandidateId st with
  | Some c =>
      if (c =? 0) || negb (identified st)
      then (setError choose_message st, None)
      else (st, Some (voting.mkVoteInput (Integer c) (voterIdentifier st)))
  | None => (setError choose_message st, None)
  end.

End Home.
(* ------------------------------------------------------------------ *)
(** ** Equations of the primitives *)

Lemma getDb_eq {E} (w : World) :
  @getDb E w = (Ok (handle w), set_db (handle w) w).
Proof.
  destruct w as [url thr db st fs tr]; unfold getDb, handle, set_db; simpl.
  destruct db; [reflexivity|].
  destruct (truthy url); [|reflexivity].
  destruct thr; reflexivity.
Qed.

Lemma handle_set_db (w : World) : handle (set_db (handle w) w) = handle w.
Proof.
  destruct w as [url thr db st fs tr]; unfold handle, set_db; simpl.
  destruct db; [reflexivity|].
  destruct (truthy url); [|reflexivity].
  destruct thr; reflexivity.
Qed.

Lemma limit1_nonempty {A} (f : A -> bool) (l : list A) :
  (0 <? Z.of_nat (List.length (firstn 1 (filter f l)))) = existsb f l.
Proof.
  induction l as [|a l IH]; simpl; [reflexivity|].
  destruct (f a); simpl; [reflexivity|exact IH].
Qed.

Lemma limit1_find {A} (f : A -> bool) (l : list A) :
  firstn 1 (filter f l)
  = match find f l with Some x => [x] | None => [] end.
Proof.
  induction l as [|a l IH]; simpl; [reflexivity|].
  destruct (f a); simpl; [reflexivity|exact IH].
Qed.

Lemma existsb_find {A} (f : A -> bool) (l : list A) :
  existsb f l = true -> exists x, find f l = Some x /\ In x l /\ f x = true.
Proof.
  induction l as [|a l IH]; simpl; [discriminate|].
  destruct (f a) eqn:Fa; simpl.
  - intros _. exists a. auto.
  - intros H. destruct (IH H) as (x & Hx & Hin & Hf). exists x. auto.
Qed.

Lemma existsb_false_filter {A} (f : A -> bool) (l : list A) :
  existsb f l = false -> filter f l = [].
Proof.
  induction l as [|a l IH]; simpl; [reflexivity|].
  destruct (f a); simpl; [discriminate|exact IH].
Qed.

(** The two degrading reads, statement by statement. *)
Lemma getAllCandidates_eq (w : World) :
  getAllCandidates w
  = match handle w with
    | None => (Ok [], set_db None w)
    | Some d =>
        if next_fault w
        then (Ok [], sent SelectCandidates (set_db (Some d) w))
        else (Ok (candidates (store w)),
              sent SelectCandidates (set_db (Some d) w))
    end.
Proof.
  unfold getAllCandidates, bind. rewrite getDb_eq.
  destruct (handle w) as [d|]; [|reflexivity].
  unfold try_catch, bind, select_candidates, statement, ret.
  change (next_fault (set_db (Some d) w)) with (next_fault w).
  destruct (next_fault w); reflexivity.
Qed.

Lemma hasVoted_eq (v : string) (w : World) :
  hasVoted v w
  = match handle w with
    | None => (Ok false, set_db None w)
    | Some d =>
        if next_fault w
        then (Ok false, sent (SelectVotesWhereVoter v) (set_db (Some d) w))
        else (Ok (voted v (store w)),
              sent (SelectVotesWhereVoter v) (set_db (Some d) w))
    end.
Proof.
  unfold hasVoted, bind. rewrite getDb_eq.
  destruct (handle w) as [d|]; [|reflexivity].
  unfold try_catch, bind, select_votes_where_voter, statement, ret.
  change (next_fault (set_db (Some d) w)) with (next_fault w).
  destruct (next_fault w); [reflexivity|].
  cbv beta iota. rewrite limit1_nonempty. reflexivity.
Qed.

(* ------------------------------------------------------------------ *)
(** ** Equations of the statements *)

Lemma next_fault_at (w : World) : next_fault w = fault_at 0 w.
Proof. unfold next_fault, fault_at. destruct (faults w); reflexivity. Qed.

Lemma fault_at_sent (n : nat) (q : Stmt) (w : World) :
  fault_at n (sent q w) = fault_at (S n) w.
Proof.
  unfold fault_at. simpl. destruct (faults w); [destruct n|]; reflexivity.
Qed.

Lemma fault_at_set_db (n : nat) (d : option Db) (w : World) :
  fault_at n (set_db d w) = fault_at n w.
Proof. reflexivity. Qed.

Lemma fault_at_set_store (n : nat) (s : Store) (w : World) :
  fault_at n (set_store s w) = fault_at n w.
Proof. reflexivity. Qed.

Lemma store_sent (q : Stmt) (w : World) : store (sent q w) = store w.
Proof. reflexivity. Qed.

Lemma store_set_db (d : option Db) (w : World) : store (set_db d w) = store w.
Proof. reflexivity. Qed.

Lemma store_set_store (s : Store) (w : World) : store (set_store s w) = s.
Proof. reflexivity. Qed.

Lemma no_faults_fault_at (w : World) (n : nat) :
  no_faults w = true -> fault_at n w = false.
Proof.
  unfold no_faults, fault_at. generalize (faults w) as l.
  induction n as [|n IH]; intros [|b l]; simpl; try reflexivity.
  - destruct b; [discriminate|reflexivity].
  - destruct b; [discriminate|]. simpl. apply IH.
Qed.

Create Rewrite HintDb world.
#[local] Hint Rewrite next_fault_at fault_at_sent fault_at_set_db
  fault_at_set_store store_sent store_set_db store_set_store : world.

Lemma fits_column_ltb (v : string) :
  (voterIdentifier_length <? String.length v)%nat = negb (fits_column v).
Proof. unfold fits_column. apply Nat.ltb_antisym. Qed.

Lemma fits_column_length (v : string) :
  (String.length v <= 255)%nat -> fits_column v = true.
Proof. intros H. apply Nat.leb_le. exact H. Qed.

Lemma insert_vote_eq (d : Db) (cid : Z) (v : string) (w : World) :
  insert_vote d cid v w
  = if fault_at 0 w
    then (Throw (failed (InsertVote cid v) ER_STORE_FAILURE),
          sent (InsertVote cid v) w)
    else if negb (fits_column v)
    then (Throw (failed (InsertVote cid v) ER_DATA_TOO_LONG),
          set_store (store w) (sent (InsertVote cid v) w))
    else if has_candidate cid (store w)
    then (Ok tt,
          set_store (with_vote cid v (store w)) (sent (InsertVote cid v) w))
    else (Throw (failed (InsertVote cid v) ER_NO_REFERENCED_ROW),
          set_store (store w) (sent (InsertVote cid v) w)).
Proof.
  unfold insert_vote, statement. rewrite next_fault_at, fits_column_ltb.
  destruct (fault_at 0 w); [reflexivity|].
  destruct (fits_column v); simpl negb; cbv iota; [|reflexivity].
  destruct (has_candidate cid (store w)); reflexivity.
Qed.

Lemma select_candidate_where_id_eq (d : Db) (cid : Z) (w : World) :
  select_candidate_where_id d cid w
  = if fault_at 0 w
    then (Throw (failed (SelectCandidateWhereId cid) ER_STORE_FAILURE),
          sent (SelectCandidateWhereId cid) w)
    else (Ok match find (fun c => Candidate.id c =? cid)
                        (candidates (store w)) with
             | Some c0 => [c0]
             | None => []
             end,
          set_store (store w) (sent (SelectCandidateWhereId cid) w)).
Proof.
  unfold select_candidate_where_id, statement. rewrite next_fault_at.
  destruct (fault_at 0 w); [reflexivity|]. rewrite limit1_find. reflexivity.
Qed.

Lemma update_candidate_votes_eq (d : Db) (cid n : Z) (w : World) :
  update_candidate_votes d cid n w
  = if fault_at 0 w
    then (Throw (failed (UpdateCandidateVotes cid n) ER_STORE_FAILURE),
          sent (UpdateCandidateVotes cid n) w)
    else (Ok tt,
          set_store (with_count cid n (store w))
                    (sent (UpdateCandidateVotes cid n) w)).
Proof.
  unfold update_candidate_votes, statement. rewrite next_fault_at.
  destruct (fault_at 0 w); reflexivity.
Qed.

Ltac world_step :=
  repeat (rewrite ?insert_vote_eq, ?select_candidate_where_id_eq,
            ?update_candidate_votes_eq;
          autorewrite with world; cbv beta iota).

(** [addVote] does what [addVote_outcome] reads off. *)
Lemma addVote_run (cid : Z) (v : string) (w : World) :
  fst (addVote cid v w) = fst (addVote_outcome cid v w)
  /\ store (snd (addVote cid v w)) = snd (addVote_outcome cid v w).
Proof.
  unfold addVote, addVote_outcome, bind, ret, throw. rewrite getDb_eq.
  destruct (handle w) as [d|] eqn:Hh; [|split; reflexivity].
  unfold try_catch, bind. rewrite hasVoted_eq.
  change (handle (set_db (Some d) w)) with (Some d).
  assert (Hcase : (negb (fault_at 0 w) && voted v (store w) = true
                   /\ fault_at 0 w = false /\ voted v (store w) = true)
                  \/ (negb (fault_at 0 w) && voted v (store w) = false)).
  { destruct (fault_at 0 w), (voted v (store w)); simpl; auto. }
  destruct Hcase as [(Hc & F0 & Hv) | Hc]; rewrite Hc.
  - world_step. rewrite F0. world_step. rewrite Hv. split; reflexivity.
  - world_step.
    destruct (fault_at 0 w) eqn:F0; [|simpl in Hc; rewrite Hc]; world_step.
    all: destruct (fault_at 1 w) eqn:F1; [split; reflexivity|].
    all: destruct (fits_column v) eqn:Hfit; simpl negb; cbv iota;
      [|split; reflexivity].
    all: destruct (has_candidate cid (store w)) eqn:Hc';
      [|split; reflexivity].
    all: simpl negb; world_step.
    all: destruct (fault_at 2 w) eqn:F2; [split; reflexivity|].
    all: destruct (find _ _) as [c0|]; world_step; [|split; reflexivity].
    all: destruct (fault_at 3 w) eqn:F3; split; reflexivity.
Qed.

(* ------------------------------------------------------------------ *)
(** ** What no computation of the module changes *)

Lemma settled_refl (w : World) : settled w w.
Proof. split; auto. Qed.

Lemma settled_trans (w1 w2 w3 : World) :
  settled w1 w2 -> settled w2 w3 -> settled w1 w3.
Proof. intros [H1 F1] [H2 F2]. split; [congruence|auto]. Qed.

Lemma stable_ret {E A} (a : A) : stable (@ret E A a).
Proof. intros w. apply settled_refl. Qed.

Lemma stable_throw {E A} (e : E) : stable (@throw E A e).
Proof. intros w. apply settled_refl. Qed.

Lemma stable_bind {E A B} (m : M E A) (k : A -> M E B) :
  stable m -> (forall a, stable (k a)) -> stable (bind m k).
Proof.
  intros Hm Hk w. unfold bind. specialize (Hm w).
  destruct (m w) as [[a|e] w1]; simpl in *; [|exact Hm].
  eapply settled_trans; [exact Hm|apply Hk].
Qed.

Lemma stable_try_catch {E F A} (m : M E A) (h : E -> M F A) :
  stable m -> (forall e, stable (h e)) -> stable (try_catch m h).
Proof.
  intros Hm Hh w. unfold try_catch. specialize (Hm w).
  destruct (m w) as [[a|e] w1]; simpl in *; [exact Hm|].
  eapply settled_trans; [exact Hm|apply Hh].
Qed.

Lemma stable_getDb {E} : stable (@getDb E).
Proof.
  intros w. rewrite getDb_eq. split; [apply handle_set_db|auto].
Qed.

Lemma no_faults_tl (l : list bool) :
  forallb negb l = true -> forallb negb (tl l) = true.
Proof.
  destruct l as [|b l]; simpl; [auto|]. destruct b; [discriminate|auto].
Qed.

Lemma stable_statement {A} (q : Stmt)
    (run : Store -> Result SqlError A * Store) :
  stable (statement q run).
Proof.
  intros w. unfold statement.
  assert (Hs : settled w (sent q w)).
  { split; [reflexivity|]. unfold no_faults. simpl. apply no_faults_tl. }
  destruct (next_fault w); [exact Hs|].
  destruct (run (store w)) as [[a|e] s]; exact Hs.
Qed.

Ltac stability :=
  repeat first
    [ apply stable_ret | apply stable_throw | apply stable_getDb
    | apply stable_statement
    | apply stable_bind; [|intros ?]
    | apply stable_try_catch; [|intros ?]
    | match goal with
      | |- stable (match ?x with _ => _ end) => destruct x
      | |- stable (if ?x then _ else _) => destruct x
      end ].

Lemma stable_getAllCandidates : stable getAllCandidates.
Proof. unfold getAllCandidates, select_candidates. stability. Qed.

Lemma stable_hasVoted (v : string) : stable (hasVoted v).
Proof. unfold hasVoted, select_votes_where_voter. stability. Qed.

Lemma stable_addVote (cid : Z) (v : string) : stable (addVote cid v).
Proof.
  unfold addVote, insert_vote, select_candidate_where_id,
    update_candidate_votes.
  stability; apply stable_hasVoted.
Qed.

Lemma stable_initializeCandidates : stable initializeCandidates.
Proof.
  unfold initializeCandidates, select_candidates, insert_candidates.
  stability.
Qed.

(* ------------------------------------------------------------------ *)
(** ** The router on a parsed input *)

Lemma parse_vote_valid (cid : Z) (v : string) :
  0 < cid <= MAX_SAFE_INTEGER -> v <> EmptyString ->
  voting.parse_vote (voting.mkVoteInput (Integer cid) v) = Ok (cid, v).
Proof.
  intros [Hc Hmax] Hv.
  unfold voting.parse_vote, voting.candidateId_issues,
    voting.voterIdentifier_issues.
  cbn [voting.candidateId voting.voterIdentifier].
  assert (Hbig : (MAX_SAFE_INTEGER <? cid) = false) by (apply Z.ltb_ge; lia).
  assert (Hsmall : (cid <? - MAX_SAFE_INTEGER) = false).
  { apply Z.ltb_ge. unfold MAX_SAFE_INTEGER. lia. }
  apply Z.ltb_lt in Hc. rewrite Hc, Hbig, Hsmall.
  destruct v as [|a v]; [congruence|reflexivity].
Qed.

(** An id of a store whose ids fit their column passes the parser. *)
Lemma has_candidate_safe (cid : Z) (s : Store) :
  int_ids s -> has_candidate cid s = true -> cid <= MAX_SAFE_INTEGER.
Proof.
  intros Hint Hc. unfold has_candidate in Hc.
  apply existsb_exists in Hc. destruct Hc as (c & Hin & Hid).
  apply Z.eqb_eq in Hid. specialize (Hint c Hin).
  unfold INT_MAX, MAX_SAFE_INTEGER in *. lia.
Qed.

Lemma vote_when_addVote_throws (cid : Z) (v : string) (w : World) (e : Err) :
  0 < cid <= MAX_SAFE_INTEGER -> v <> EmptyString ->
  fst (addVote cid v w) = Throw e ->
  voting.vote (voting.mkVoteInput (Integer cid) v) w
  = (Throw (boundary_error e), snd (addVote cid v w)).
Proof.
  intros Hc Hv He. unfold voting.vote, procedure.
  rewrite (parse_vote_valid _ _ Hc Hv). unfold try_catch, bind.
  simpl fst; simpl snd.
  destruct (addVote cid v w) as [r w1]. simpl in He. subst r.
  unfold boundary_error, throw. simpl snd.
  destruct (includes _ _); reflexivity.
Qed.

Lemma vote_when_addVote_returns (cid : Z) (v : string) (w : World) (b : bool) :
  0 < cid <= MAX_SAFE_INTEGER -> v <> EmptyString ->
  fst (addVote cid v w) = Ok b ->
  exists l,
    getAllCandidates (snd (addVote cid v w))
    = (Ok l, snd (getAllCandidates (snd (addVote cid v w))))
    /\ voting.vote (voting.mkVoteInput (Integer cid) v) w
       = (Ok (voting.mkVoteOutput true l),
          snd (getAllCandidates (snd (addVote cid v w)))).
Proof.
  intros Hc Hv Hb. unfold voting.vote, procedure.
  rewrite (parse_vote_valid _ _ Hc Hv). unfold try_catch, bind.
  simpl fst; simpl snd.
  destruct (addVote cid v w) as [r w1]. simpl in Hb. subst r. simpl snd.
  rewrite getAllCandidates_eq.
  destruct (handle w1) as [d|]; [destruct (next_fault w1)|];
    eexists; split; reflexivity.
Qed.

Lemma getAllCandidates_store (w : World) :
  store (snd (getAllCandidates w)) = store w.
Proof.
  rewrite getAllCandidates_eq.
  destruct (handle w); [destruct (next_fault w)|]; reflexivity.
Qed.

Lemma available_handle (w : World) :
  available w = true -> exists d, handle w = Some d.
Proof.
  unfold available. destruct (handle w) as [d|]; [eauto|discriminate].
Qed.

(* ------------------------------------------------------------------ *)
(** ** The message of a failed statement *)

(** No occurrence of the phrase the router looks for starts at a character
    other than its first. *)
Lemma includes_skip (c : ascii) (s : string) :
  c <> "a"%char ->
  includes "already voted" (String c s) = includes "already voted" s.
Proof.
  intros H. cbn [includes String.prefix].
  destruct (ascii_dec "a" c) as [E|E]; [congruence|reflexivity].
Qed.

Lemma includes_uint (d : Decimal.uint) (s : string) :
  includes "already voted" (NilEmpty.string_of_uint d ++ s)
  = includes "already voted" s.
Proof.
  induction d; cbn [NilEmpty.string_of_uint append]; try reflexivity;
    rewrite includes_skip by discriminate; exact IHd.
Qed.

(** The digits of a number are passed over. *)
Lemma includes_decimal (z : Z) (s : string) :
  includes "already voted" (decimal z ++ s) = includes "already voted" s.
Proof.
  unfold decimal, NilZero.string_of_int, NilZero.string_of_uint.
  destruct (Z.to_int z) as [d|d].
  - destruct d; try apply (includes_uint _ s). reflexivity.
  - cbn [append]. rewrite includes_skip by discriminate.
    destruct d; try apply (includes_uint _ s). reflexivity.
Qed.

(** The message of a refused or failed insert into [votes] has the phrase
    exactly when the voter identifier it quotes has it. *)
Lemma failed_insert_includes (cid : Z) (v : string) (cause : SqlError) :
  includes "already voted" (error_message (failed (InsertVote cid v) cause))
  = includes "already voted" v.
Proof.
  unfold failed, error_message, params, join.
  generalize (decimal cid ++ "," ++ v)%string (includes_decimal cid ("," ++ v)).
  intros x Hx.
  transitivity (includes "already voted" x); [reflexivity|].
  rewrite Hx. reflexivity.
Qed.

(** The messages of a failed lookup and of a failed update quote numbers
    only. *)
Lemma failed_lookup_includes (cid : Z) (cause : SqlError) :
  includes "already voted"
    (error_message (failed (SelectCandidateWhereId cid) cause)) = false.
Proof.
  unfold failed, error_message, params, join.
  generalize (decimal cid ++ "," ++ decimal 1)%string
    (includes_decimal cid ("," ++ decimal 1)).
  intros x Hx.
  transitivity (includes "already voted" x); [reflexivity|].
  rewrite Hx. reflexivity.
Qed.

Lemma failed_update_includes (cid n : Z) (cause : SqlError) :
  includes "already voted"
    (error_message (failed (UpdateCandidateVotes cid n) cause)) = false.
Proof.
  unfold failed, error_message, params, join.
  pose proof (includes_decimal cid EmptyString) as Hc.
  replace (decimal cid ++ EmptyString)%string with (decimal cid) in Hc
    by (clear; induction (decimal cid) as [|a s IH];
        [reflexivity|simpl; f_equal; exact IH]).
  generalize (decimal n ++ "," ++ decimal cid)%string
    (includes_decimal n ("," ++ decimal cid)).
  intros x Hx.
  transitivity (includes "already voted" x); [reflexivity|].
  rewrite Hx. cbn [append]. rewrite includes_skip by discriminate.
  rewrite Hc. reflexivity.
Qed.

(** What the router makes of the errors of the three writes. *)
Lemma boundary_error_failed_insert (cid : Z) (v : string) (cause : SqlError) :
  boundary_error (failed (InsertVote cid v) cause)
  = if includes "already voted" v then duplicate_vote_error
    else generic_failure_error.
Proof.
  unfold boundary_error. rewrite failed_insert_includes. reflexivity.
Qed.

Lemma boundary_error_failed_lookup (cid : Z) (cause : SqlError) :
  boundary_error (failed (SelectCandidateWhereId cid) cause)
  = generic_failure_error.
Proof.
  unfold boundary_error. rewrite failed_lookup_includes. reflexivity.
Qed.

Lemma boundary_error_failed_update (cid n : Z) (cause : SqlError) :
  boundary_error (failed (UpdateCandidateVotes cid n) cause)
  = generic_failure_error.
Proof.
  unfold boundary_error. rewrite failed_update_includes. reflexivity.
Qed.

Lemma boundary_error_cases (e : Err) :
  boundary_error e = duplicate_vote_error
  \/ boundary_error e = generic_failure_error.
Proof.
  unfold boundary_error. destruct (includes _ _); auto.
Qed.

Lemma duplicate_is_not_generic : duplicate_vote_error <> generic_failure_error.
Proof. discriminate. Qed.

(** The error [addVote] throws is one the router takes for a second vote in
    two cases only: the existence read was answered and found a row, or the
    insert was not accepted and the voter identifier, which the message of
    the failed insert quotes, has the phrase itself. *)
Lemma addVote_outcome_taken_for_duplicate (cid : Z) (v : string) (w : World)
    (e : Err) :
  fst (addVote_outcome cid v w) = Throw e ->
  boundary_error e = duplicate_vote_error ->
  (fault_at 0 w = false /\ voted v (store w) = true)
  \/ (includes "already voted" v = true
      /\ snd (addVote_outcome cid v w) = store w
      /\ (fault_at 1 w = true \/ fits_column v = false
          \/ has_candidate cid (store w) = false)).
Proof.
  unfold addVote_outcome.
  destruct (handle w); [|discriminate].
  destruct (fault_at 0 w) eqn:F0, (voted v (store w)) eqn:Hv; simpl negb;
    simpl andb; cbv iota; try (intros _ _; left; split; reflexivity).
  all: destruct (fault_at 1 w) eqn:F1;
    [intros [= <-]; rewrite boundary_error_failed_insert;
     destruct (includes _ v); [auto 6|discriminate]|].
  all: destruct (fits_column v) eqn:Hfit; simpl negb; cbv iota;
    [|intros [= <-]; rewrite boundary_error_failed_insert;
      destruct (includes _ v); [auto 6|discriminate]].
  all: destruct (has_candidate cid (store w)) eqn:Hc; simpl negb; cbv iota;
    [|intros [= <-]; rewrite boundary_error_failed_insert;
      destruct (includes _ v); [auto 6|discriminate]].
  all: destruct (fault_at 2 w);
    [intros [= <-]; rewrite boundary_error_failed_lookup; discriminate|].
  all: destruct (find _ _); [|discriminate].
  all: destruct (fault_at 3 w); [|discriminate].
  all: intros [= <-]; rewrite boundary_error_failed_update; discriminate.
Qed.

Lemma vote_taken_for_duplicate (i : voting.VoteInput) (w : World) :
  fst (voting.vote i w) = Throw duplicate_vote_error ->
  voted (voting.voterIdentifier i) (store w) = true
  \/ (includes "already voted" (voting.voterIdentifier i) = true
      /\ store (snd (voting.vote i w)) = store w).
Proof.
  unfold voting.vote, procedure, voting.parse_vote.
  destruct (voting.candidateId i) as [z|];
    [destruct (_ ++ _)|]; try discriminate.
  unfold try_catch, bind. simpl fst; simpl snd.
  pose proof (addVote_run z (voting.voterIdentifier i) w) as [Hr Hs].
  destruct (addVote z (voting.voterIdentifier i) w) as [[b|e] w1].
  - rewrite getAllCandidates_eq. unfold ret.
    destruct (handle w1); [destruct (next_fault w1)|]; discriminate.
  - simpl in Hr, Hs. intros He.
    assert (Hb : boundary_error e = duplicate_vote_error).
    { unfold boundary_error, throw in *. destruct (includes _ _); simpl in He;
        congruence. }
    symmetry in Hr.
    destruct (addVote_outcome_taken_for_duplicate _ _ _ _ Hr Hb)
      as [[_ Hv]|(Hi & Hsame & _)]; [left; exact Hv|].
    right. split; [exact Hi|].
    unfold throw. destruct (includes _ (error_message e)); simpl snd;
      rewrite Hs; exact Hsame.
Qed.

(* ------------------------------------------------------------------ *)
(** ** Rejections *)

(** A voter identifier that has a row in [votes] is turned away when the
    handle is there and the existence read is answered: [addVote] throws its
    own "already voted" error for every candidate id and leaves the store as
    it was (no row, no counter touched); the router turns this into the
    BAD_REQUEST with the "already voted" message. *)
Lemma duplicate_vote_rejected (w : World) (cid : Z) (v : string) :
  available w = true -> fault_at 0 w = false -> voted v (store w) = true ->
  (fst (addVote cid v w) = Throw (JsError already_voted_message)
   /\ store (snd (addVote cid v w)) = store w)
  /\ (0 < cid <= MAX_SAFE_INTEGER -> v <> EmptyString ->
      fst (voting.vote (voting.mkVoteInput (Integer cid) v) w)
      = Throw duplicate_vote_error
      /\ store (snd (voting.vote (voting.mkVoteInput (Integer cid) v) w))
         = store w).
Proof.
  intros Ha F0 Hv.
  destruct (available_handle w Ha) as [d Hd].
  pose proof (addVote_run cid v w) as [Hr Hs].
  unfold addVote_outcome in Hr, Hs. rewrite Hd, F0, Hv in Hr, Hs.
  simpl in Hr, Hs.
  split; [split; assumption|].
  intros Hc Hne.
  rewrite (vote_when_addVote_throws cid v w _ Hc Hne Hr).
  split; [reflexivity|exact Hs].
Qed.

(** C2. A voter who has a row is not always turned away, and the answer for
    a second vote is not told apart from every other failure. In the process
    in which "v1" has voted for candidate 1 and the next statement, the
    existence read, fails, [voting.vote] for candidate 2 and "v1" answers
    success, [votes] gets a second row for "v1" and candidate 2 a count. And
    on the seeded store, where "never already voted" has no row, a vote of
    that voter for the unknown candidate 9 is answered with the BAD_REQUEST
    of a second vote. *)
Theorem second_vote_accepted_after_failed_read :
  (voted "v1" (store world_after_v1_failing_read) = true
   /\ fault_at 0 world_after_v1_failing_read = true
   /\ fst (voting.vote (voting.mkVoteInput (Integer 2) "v1")
                       world_after_v1_failing_read)
      = Ok (voting.mkVoteOutput true
              (count_vote 2 (candidates store_after_v1)))
   /\ rows_of_voter "v1"
        (store (snd (voting.vote (voting.mkVoteInput (Integer 2) "v1")
                                 world_after_v1_failing_read)))
      = [Vote.mk 1 1 "v1"; Vote.mk 2 2 "v1"])
  /\ (voted "never already voted" (store seeded_world) = false
      /\ fst (voting.vote
                (voting.mkVoteInput (Integer 9) "never already voted")
                seeded_world)
         = Throw duplicate_vote_error).
Proof. repeat split; reflexivity. Qed.

(** A vote for a candidate id that is not in [candidates] fails and adds no
    row when the handle is there: the statements of [addVote] run up to the
    insert, which is not accepted (it fails, the identifier is longer than
    its column, or the foreign key of [votes.candidateId] refuses it),
    [addVote] rethrows and the store is as before. The router answers with
    the INTERNAL_SERVER_ERROR of its catch, unless the voter identifier has
    the phrase "already voted" in it: then it answers as for a second
    vote. *)
Lemma unknown_candidate_rejected (w : World) (cid : Z) (v : string) :
  available w = true ->
  has_candidate cid (store w) = false ->
  voted v (store w) = false ->
  (fst (addVote cid v w)
   = Throw (failed (InsertVote cid v)
              (if fault_at 1 w then ER_STORE_FAILURE
               else if fits_column v then ER_NO_REFERENCED_ROW
               else ER_DATA_TOO_LONG))
   /\ store (snd (addVote cid v w)) = store w)
  /\ (0 < cid <= MAX_SAFE_INTEGER -> v <> EmptyString ->
      fst (voting.vote (voting.mkVoteInput (Integer cid) v) w)
      = Throw (if includes "already voted" v then duplicate_vote_error
               else generic_failure_error)
      /\ store (snd (voting.vote (voting.mkVoteInput (Integer cid) v) w))
         = store w).
Proof.
  intros Ha Hc Hv.
  destruct (available_handle w Ha) as [d Hd].
  pose proof (addVote_run cid v w) as [Hr Hs].
  unfold addVote_outcome in Hr, Hs. rewrite Hd, Hv, Hc in Hr, Hs.
  rewrite andb_false_r in Hr, Hs. simpl negb in Hr, Hs.
  assert (Hr' : fst (addVote cid v w)
                = Throw (failed (InsertVote cid v)
                           (if fault_at 1 w then ER_STORE_FAILURE
                            else if fits_column v then ER_NO_REFERENCED_ROW
                            else ER_DATA_TOO_LONG)))
    by (rewrite Hr; destruct (fault_at 1 w), (fits_column v); reflexivity).
  assert (Hs' : store (snd (addVote cid v w)) = store w)
    by (rewrite Hs; destruct (fault_at 1 w), (fits_column v); reflexivity).
  split; [split; assumption|].
  intros Hpos Hne.
  rewrite (vote_when_addVote_throws cid v w _ Hpos Hne Hr').
  rewrite boundary_error_failed_insert.
  split; [reflexivity|exact Hs'].
Qed.

(** C4. A vote for a candidate that does not exist is not always surfaced as
    such. Candidate 9 is not in the seeded store and the voters below have
    no row. In a process without DATABASE_URL, [voting.vote] for candidate 9
    answers success, with an empty list; and in a process with a handle, the
    vote of "not already voted" for candidate 9 is refused by the store, no
    row is added, and the caller is told that this device has already
    voted. *)
Theorem unknown_candidate_not_surfaced :
  (has_candidate 9 seeded_store = false
   /\ voted "v1" seeded_store = false
   /\ voted "not already voted" seeded_store = false)
  /\ voting.vote (voting.mkVoteInput (Integer 9) "v1")
                 (boot_without_url seeded_store)
     = (Ok (voting.mkVoteOutput true []), boot_without_url seeded_store)
  /\ fst (addVote 9 "not already voted" seeded_world)
     = Throw (failed (InsertVote 9 "not already voted") ER_NO_REFERENCED_ROW)
  /\ fst (voting.vote (voting.mkVoteInput (Integer 9) "not already voted")
                      seeded_world)
     = Throw duplicate_vote_error
  /\ store (snd (voting.vote
                   (voting.mkVoteInput (Integer 9) "not already voted")
                   seeded_world))
     = seeded_store.
Proof. repeat split; reflexivity. Qed.

(* ------------------------------------------------------------------ *)
(** ** The write path without a store *)

Lemma addVote_without_handle (cid : Z) (v : string) (w : World) :
  available w = false -> addVote cid v w = (Ok false, set_db None w).
Proof.
  unfold available, addVote, bind. rewrite getDb_eq.
  destruct (handle w); [discriminate|reflexivity].
Qed.

(** Without a handle [addVote] returns [false] and the router, which drops
    the value, answers success with the empty list a degraded read gives; no
    statement is sent and the store is not touched. *)
Lemma vote_without_handle (cid : Z) (v : string) (w : World) :
  available w = false -> 0 < cid <= MAX_SAFE_INTEGER -> v <> EmptyString ->
  fst (voting.vote (voting.mkVoteInput (Integer cid) v) w)
  = Ok (voting.mkVoteOutput true [])
  /\ store (snd (voting.vote (voting.mkVoteInput (Integer cid) v) w))
     = store w
  /\ trace (snd (voting.vote (voting.mkVoteInput (Integer cid) v) w))
     = trace w.
Proof.
  intros Ha Hc Hv.
  pose proof (addVote_without_handle cid v w Ha) as Hadd.
  assert (Hh : handle (set_db None w) = None).
  { unfold available in Ha. destruct (handle w) eqn:Hw; [discriminate|].
    rewrite <- Hw at 1. rewrite handle_set_db. exact Hw. }
  destruct (vote_when_addVote_returns cid v w false Hc Hv) as (l & Hl & Hvote).
  { rewrite Hadd. reflexivity. }
  rewrite Hvote, Hadd in *. simpl snd in *. simpl fst.
  rewrite getAllCandidates_eq in *. rewrite Hh in *.
  simpl snd. inversion Hl; subst. repeat split; reflexivity.
Qed.

(** With a handle but a store that answers neither the existence read nor the
    insert, the failure does reach the caller, as the generic error or, for
    a voter identifier with the phrase in it, as a second vote. *)
Lemma vote_surfaces_failed_write (cid : Z) (v : string) (w : World) :
  available w = true -> fault_at 0 w = true -> fault_at 1 w = true ->
  0 < cid <= MAX_SAFE_INTEGER -> v <> EmptyString ->
  fst (voting.vote (voting.mkVoteInput (Integer cid) v) w)
  = Throw (if includes "already voted" v then duplicate_vote_error
           else generic_failure_error)
  /\ store (snd (voting.vote (voting.mkVoteInput (Integer cid) v) w))
     = store w.
Proof.
  intros Ha F0 F1 Hc Hv.
  destruct (available_handle w Ha) as [d Hd].
  pose proof (addVote_run cid v w) as [Hr Hs].
  unfold addVote_outcome in Hr, Hs. rewrite Hd, F0, F1 in Hr, Hs.
  simpl in Hr, Hs.
  rewrite (vote_when_addVote_throws cid v w _ Hc Hv Hr).
  rewrite boundary_error_failed_insert.
  split; [reflexivity|exact Hs].
Qed.

(** C5. The write path does not surface a missing store: in a process without
    DATABASE_URL, [voting.vote] for candidate 1 and voter "v1" answers
    [success: true] with an empty candidate list, sends no statement, and
    the vote is nowhere. *)
Theorem vote_reports_success_without_store :
  available (boot_without_url seeded_store) = false
  /\ fst (addVote 1 "v1" (boot_without_url seeded_store)) = Ok false
  /\ voting.vote (voting.mkVoteInput (Integer 1) "v1")
                 (boot_without_url seeded_store)
     = (Ok (voting.mkVoteOutput true []), boot_without_url seeded_store).
Proof. repeat split; reflexivity. Qed.

(* ------------------------------------------------------------------ *)
(** ** The accepted vote *)

Lemma no_row_with_id (cid : Z) (f : Candidate.t -> Candidate.t)
    (l : list Candidate.t) :
  ~ In cid (map Candidate.id l) ->
  map (fun c => if Candidate.id c =? cid then f c else c) l = l.
Proof.
  induction l as [|a l IH]; simpl; [reflexivity|].
  intros Hn. destruct (Z.eqb_spec (Candidate.id a) cid) as [E|E].
  - exfalso. apply Hn. left. exact E.
  - f_equal. apply IH. intros Hin. apply Hn. right. exact Hin.
Qed.

(** Under the primary key the update, which writes the first matching row's
    count plus one into every matching row, adds one to the one row there
    is. *)
Lemma update_is_count_vote (cid : Z) (l : list Candidate.t) (c0 : Candidate.t) :
  NoDup (map Candidate.id l) ->
  find (fun c => Candidate.id c =? cid) l = Some c0 ->
  map (fun c => if Candidate.id c =? cid
                then Candidate.set_votes (Candidate.votes c0 + 1) c else c) l
  = count_vote cid l.
Proof.
  unfold count_vote.
  induction l as [|a l IH]; simpl; [discriminate|].
  intros Hnd Hf. inversion Hnd as [|x xs Hnotin Hnd']; subst.
  destruct (Z.eqb_spec (Candidate.id a) cid) as [E|E].
  - inversion Hf; subst. f_equal.
    rewrite !no_row_with_id by assumption. reflexivity.
  - f_equal. apply IH; assumption.
Qed.

(** A voter identifier longer than the column of [votes] is refused by the
    store, whatever else holds. *)
Lemma long_identifier_refused (w : World) (cid : Z) (v : string) :
  available w = true -> fault_at 1 w = false ->
  voted v (store w) = false -> fits_column v = false ->
  fst (addVote cid v w) = Throw (failed (InsertVote cid v) ER_DATA_TOO_LONG)
  /\ store (snd (addVote cid v w)) = store w.
Proof.
  intros Ha F1 Hv Hfit.
  destruct (available_handle w Ha) as [d Hd].
  pose proof (addVote_run cid v w) as [Hr Hs].
  unfold addVote_outcome in Hr, Hs.
  rewrite Hd, Hv, F1, Hfit, andb_false_r in Hr, Hs.
  simpl in Hr, Hs. split; assumption.
Qed.

(** Not every voter without a row can vote, against C6 as it is worded: a
    voter identifier may be longer than the column holds. On the seeded
    store, with the handle there and every statement answered,
    the vote of a voter without a row, whose identifier has 256 characters,
    for candidate 1 is refused: [voting.vote] throws the generic error and
    the store is as before. *)
Lemma vote_of_long_identifier_fails :
  (available seeded_world = true /\ no_faults seeded_world = true
   /\ has_candidate 1 (store seeded_world) = true
   /\ voted identifier_of_256 (store seeded_world) = false
   /\ String.length identifier_of_256 = 256%nat)
  /\ fst (voting.vote (voting.mkVoteInput (Integer 1) identifier_of_256)
                      seeded_world)
     = Throw generic_failure_error
  /\ store (snd (voting.vote
                   (voting.mkVoteInput (Integer 1) identifier_of_256)
                   seeded_world))
     = seeded_store
  /\ ~ (forall (w : World) (cid : Z) (v : string),
          available w = true -> no_faults w = true ->
          has_candidate cid (store w) = true -> voted v (store w) = false ->
          v <> EmptyString ->
          succeeded (fst (voting.vote (voting.mkVoteInput (Integer cid) v) w))
          = true).
Proof.
  split; [repeat split; reflexivity|].
  split; [vm_compute; reflexivity|].
  split; [vm_compute; reflexivity|].
  intros H.
  specialize (H seeded_world 1 identifier_of_256 eq_refl eq_refl eq_refl
                eq_refl).
  assert (Hne : identifier_of_256 <> EmptyString) by discriminate.
  specialize (H Hne). vm_compute in H. discriminate.
Qed.

(** C6. With the handle there and no statement failing, a vote of a voter
    without a row, whose identifier fits the column of [votes], for a
    candidate that exists is accepted: [voting.vote] answers success with
    the whole candidate list as re-read from the store, which is the list
    before the call with the count of that candidate one higher and every
    other row as it was; the store holds that list and one more vote row,
    for this candidate and voter. *)
Theorem vote_accepted (w : World) (cid : Z) (v : string) :
  available w = true -> no_faults w = true ->
  primary_key (store w) -> int_ids (store w) ->
  has_candidate cid (store w) = true -> voted v (store w) = false ->
  0 < cid -> v <> EmptyString -> (String.length v <= 255)%nat ->
  fst (voting.vote (voting.mkVoteInput (Integer cid) v) w)
  = Ok (voting.mkVoteOutput true (count_vote cid (candidates (store w))))
  /\ candidates (store (snd (voting.vote
                               (voting.mkVoteInput (Integer cid) v) w)))
     = count_vote cid (candidates (store w))
  /\ votes (store (snd (voting.vote (voting.mkVoteInput (Integer cid) v) w)))
     = votes (store w) ++ [Vote.mk (votes_auto (store w)) cid v].
Proof.
  intros Ha Hnf Hpk Hint Hc Hv Hpos Hne Hlen.
  pose proof (conj Hpos (has_candidate_safe cid _ Hint Hc)) as Hrange.
  destruct (available_handle w Ha) as [d Hd].
  destruct (existsb_find _ _ Hc) as (c0 & Hfind & _ & _).
  pose proof (addVote_run cid v w) as [Hr Hs].
  unfold addVote_outcome in Hr, Hs.
  rewrite Hd, Hv, Hc, Hfind, (fits_column_length v Hlen),
    !(no_faults_fault_at w _ Hnf) in Hr, Hs.
  simpl in Hr, Hs.
  destruct (vote_when_addVote_returns cid v w true Hrange Hne Hr)
    as (l & Hl & Hvote).
  rewrite Hvote. simpl fst; simpl snd.
  rewrite getAllCandidates_store, Hs.
  destruct (stable_addVote cid v w) as [Hh Hf]. specialize (Hf Hnf).
  rewrite getAllCandidates_eq in Hl. rewrite Hh, Hd in Hl.
  rewrite next_fault_at, (no_faults_fault_at _ _ Hf), Hs in Hl.
  injection Hl as Hl. subst l.
  unfold with_count, with_vote; simpl candidates; simpl votes.
  rewrite (update_is_count_vote cid _ c0 Hpk Hfind).
  repeat split; reflexivity.
Qed.

Lemma int_ids_seeded_store : int_ids seeded_store.
Proof.
  intros c Hin. simpl in Hin.
  repeat (destruct Hin as [<-|Hin]; [discriminate|]). contradiction.
Qed.

Lemma vote_accepted_witness :
  (available (boot seeded_store []) = true
   /\ no_faults (boot seeded_store []) = true
   /\ has_candidate 1 (store (boot seeded_store [])) = true
   /\ voted "v1" (store (boot seeded_store [])) = false)
  /\ fst (voting.vote (voting.mkVoteInput (Integer 1) "v1")
                      (boot seeded_store []))
     = Ok (voting.mkVoteOutput true (candidates store_after_v1))
  /\ candidates (store (snd (voting.vote
                               (voting.mkVoteInput (Integer 1) "v1")
                               (boot seeded_store []))))
     = candidates store_after_v1
  /\ votes (store (snd (voting.vote (voting.mkVoteInput (Integer 1) "v1")
                                    (boot seeded_store []))))
     = [Vote.mk 1 1 "v1"].
Proof.
  split; [repeat split; reflexivity|].
  apply (vote_accepted (boot seeded_store []) 1 "v1"); try reflexivity.
  - unfold primary_key. simpl.
    repeat (constructor; [simpl; intuition discriminate|]). constructor.
  - exact int_ids_seeded_store.
  - discriminate.
  - simpl. lia.
Defined.

(* ------------------------------------------------------------------ *)
(** ** The tally *)

Lemma rows_of_candidate_with_vote (cid c : Z) (v : string) (s : Store) :
  List.length (rows_of_candidate c (with_vote cid v s))
  = (List.length (rows_of_candidate c s)
     + (if (cid =? c)%Z then 1 else 0))%nat.
Proof.
  unfold rows_of_candidate, with_vote. simpl votes.
  rewrite filter_app, length_app. simpl.
  destruct (cid =? c); reflexivity.
Qed.

Lemma seeded_store_tally : tally_consistent seeded_store.
Proof.
  intros c Hin. simpl in Hin.
  repeat (destruct Hin as [<-|Hin]; [reflexivity|]). contradiction.
Qed.

(** A call of [addVote] that returns keeps the tally: either it did nothing,
    or it added the row and wrote the count of the referenced candidate plus
    one. *)
Lemma addVote_returns_keeps_tally (cid : Z) (v : string) (w : World)
    (b : bool) :
  tally_consistent (store w) ->
  fst (addVote_outcome cid v w) = Ok b ->
  tally_consistent (snd (addVote_outcome cid v w)).
Proof.
  intros Ht. unfold addVote_outcome.
  destruct (handle w); [|intros _; exact Ht].
  destruct (negb (fault_at 0 w) && voted v (store w)); [discriminate|].
  destruct (fault_at 1 w); [discriminate|].
  destruct (fits_column v); simpl negb; cbv iota; [|discriminate].
  destruct (has_candidate cid (store w)) eqn:Hc; simpl negb; cbv iota;
    [|discriminate].
  destruct (fault_at 2 w); [discriminate|].
  destruct (existsb_find _ _ Hc) as (c0 & Hfind & Hin0 & Hid0).
  rewrite Hfind. destruct (fault_at 3 w); [discriminate|].
  intros _. simpl snd. apply Z.eqb_eq in Hid0.
  intros c' Hin. unfold with_count in Hin; simpl candidates in Hin.
  apply in_map_iff in Hin. destruct Hin as (c & <- & Hin).
  change (rows_of_candidate ?i (with_count ?a ?n ?s))
    with (rows_of_candidate i s).
  destruct (Z.eqb_spec (Candidate.id c) cid) as [E|E].
  - simpl Candidate.votes. simpl Candidate.id.
    rewrite rows_of_candidate_with_vote, E, Z.eqb_refl.
    rewrite (Ht c0 Hin0), Hid0. lia.
  - rewrite rows_of_candidate_with_vote.
    destruct (Z.eqb_spec cid (Candidate.id c)) as [E'|E'];
      [congruence|].
    rewrite (Ht c Hin). f_equal. lia.
Qed.

Lemma vote_success_keeps_tally (i : voting.VoteInput) (w : World) :
  tally_consistent (store w) ->
  succeeded (fst (voting.vote i w)) = true ->
  tally_consistent (store (snd (voting.vote i w))).
Proof.
  intros Ht. unfold voting.vote, procedure.
  destruct (voting.parse_vote i) as [[cid v]|issues]; [|discriminate].
  unfold try_catch, bind. simpl fst; simpl snd.
  pose proof (addVote_run cid v w) as [Hr Hs].
  destruct (addVote cid v w) as [[b|e] w1]; simpl in Hr, Hs.
  - pose proof (getAllCandidates_store w1) as Hg.
    pose proof (getAllCandidates_eq w1) as He.
    destruct (getAllCandidates w1) as [[l|e] w2]; simpl in Hg.
    + intros _. unfold ret. simpl. rewrite Hg, Hs.
      eapply addVote_returns_keeps_tally; [exact Ht|symmetry; exact Hr].
    + exfalso.
      destruct (handle w1); [destruct (next_fault w1)|]; discriminate.
  - unfold throw. destruct (includes _ _); discriminate.
Qed.

Lemma votes_in_a_row_keep_tally (inputs : list voting.VoteInput) :
  forall w,
    tally_consistent (store w) ->
    forallb succeeded (fst (in_a_row (map voting.vote inputs) w)) = true ->
    tally_consistent (store (snd (in_a_row (map voting.vote inputs) w))).
Proof.
  induction inputs as [|i inputs IH]; intros w Ht; simpl; [auto|].
  pose proof (vote_success_keeps_tally i w Ht) as Hstep.
  destruct (voting.vote i w) as [r w1]. simpl in Hstep.
  specialize (IH w1).
  destruct (in_a_row (map voting.vote inputs) w1) as [rs w2].
  simpl in *. intros Hall. apply andb_true_iff in Hall.
  destruct Hall as [Hr Hrs]. auto.
Qed.

(** C3. From the seeded store, after any calls of [voting.vote] in a row that
    all succeeded, whatever the handle and whichever statements failed on the
    way, every candidate's count is the number of vote rows that reference
    the candidate. *)
Theorem tally_consistency (w : World) (inputs : list voting.VoteInput) :
  store w = seeded_store ->
  forallb succeeded (fst (in_a_row (map voting.vote inputs) w)) = true ->
  tally_consistent (store (snd (in_a_row (map voting.vote inputs) w))).
Proof.
  intros Hs. apply votes_in_a_row_keep_tally.
  rewrite Hs. apply seeded_store_tally.
Qed.

Lemma tally_consistency_witness :
  (store (boot seeded_store [true]) = seeded_store
   /\ forallb succeeded
        (fst (in_a_row
                (map voting.vote
                     [voting.mkVoteInput (Integer 1) "v1";
                      voting.mkVoteInput (Integer 2) "v2";
                      voting.mkVoteInput (Integer 1) "v3"])
                (boot seeded_store [true]))) = true)
  /\ tally_consistent
       (store (snd (in_a_row
                      (map voting.vote
                           [voting.mkVoteInput (Integer 1) "v1";
                            voting.mkVoteInput (Integer 2) "v2";
                            voting.mkVoteInput (Integer 1) "v3"])
                      (boot seeded_store [true])))).
Proof.
  split; [split; reflexivity|].
  apply (tally_consistency (boot seeded_store [true])); reflexivity.
Defined.

(* ------------------------------------------------------------------ *)
(** ** Seeding *)

Lemma insert_candidates_eq (d : Db) (names : list string) (w : World) :
  insert_candidates d names w
  = if fault_at 0 w
    then (Throw (failed (InsertCandidates names) ER_STORE_FAILURE),
          sent (InsertCandidates names) w)
    else (Ok tt,
          set_store (with_candidates names (store w))
                    (sent (InsertCandidates names) w)).
Proof.
  unfold insert_candidates, statement. rewrite next_fault_at.
  destruct (fault_at 0 w); reflexivity.
Qed.

(** [initializeCandidates] never throws, and seeds only an empty table. *)
Lemma initializeCandidates_run (w : World) :
  fst (initializeCandidates w) = Ok tt
  /\ seed_step (store w) (store (snd (initializeCandidates w))).
Proof.
  unfold initializeCandidates, bind, seed_step. rewrite getDb_eq.
  destruct (handle w) as [d|]; [|split; [reflexivity|left; reflexivity]].
  unfold try_catch, bind, select_candidates, statement, ret.
  rewrite next_fault_at, fault_at_set_db.
  destruct (fault_at 0 w); [split; [reflexivity|left; reflexivity]|].
  cbv beta iota. rewrite store_set_db.
  destruct (candidates (store w)) as [|c l] eqn:Hc.
  - rewrite insert_candidates_eq. autorewrite with world.
    destruct (fault_at 1 w); cbv iota;
      (split; [reflexivity|]); [left; reflexivity|].
    right. split; [reflexivity|]. reflexivity.
  - split; [reflexivity|left; reflexivity].
Qed.

Lemma getCandidates_run (w : World) :
  seed_step (store w) (store (snd (voting.getCandidates w)))
  /\ exists l, fst (voting.getCandidates w) = Ok l
       /\ (l = [] \/ l = candidates (store (snd (voting.getCandidates w)))).
Proof.
  unfold voting.getCandidates, uncaught, try_catch, bind.
  destruct (initializeCandidates_run w) as [Hr Hs].
  destruct (initializeCandidates w) as [r w1]. simpl in Hr, Hs. subst r.
  pose proof (getAllCandidates_store w1) as Hg.
  rewrite getAllCandidates_eq in Hg |- *.
  destruct (handle w1); [destruct (next_fault w1)|]; simpl in *;
    (split; [exact Hs|]); eexists; split; try reflexivity; auto.
Qed.

Lemma with_seed_not_empty (s : Store) : candidates (with_seed s) <> [].
Proof.
  unfold with_seed, candidatesList. simpl candidates.
  destruct (candidates s); discriminate.
Qed.

Lemma seed_step_twice (s s1 s2 : Store) :
  seed_step s s1 -> seed_step s1 s2 -> seed_step s s2.
Proof.
  intros [->|[He ->]] H2; [exact H2|].
  destruct H2 as [->|[He2 _]].
  - right. auto.
  - exfalso. exact (with_seed_not_empty s He2).
Qed.

Lemma listed_from_step (s s1 : Store)
    (r : Result TRPCError (list Candidate.t)) :
  seed_step s s1 -> listed_from s1 r -> listed_from s r.
Proof.
  intros [->|[He ->]] Hl; [exact Hl|].
  destruct Hl as (l & -> & Hl). exists l. split; [reflexivity|].
  destruct Hl as [-> | [-> | [He2 _]]].
  - left. reflexivity.
  - right. right. split; [exact He|].
    unfold with_seed. simpl candidates. rewrite He. reflexivity.
  - exfalso. exact (with_seed_not_empty s He2).
Qed.

Lemma getCandidates_in_a_row (n : nat) :
  forall w,
    seed_step (store w)
              (store (snd (in_a_row (repeat voting.getCandidates n) w)))
    /\ Forall (listed_from (store w))
              (fst (in_a_row (repeat voting.getCandidates n) w)).
Proof.
  induction n as [|n IH]; intros w; simpl.
  - split; [left; reflexivity|constructor].
  - destruct (getCandidates_run w) as [Hs (l & Hr & Hl)].
    destruct (voting.getCandidates w) as [r w1]. simpl in Hs, Hr, Hl.
    destruct (IH w1) as [Hs' Hall].
    destruct (in_a_row (repeat voting.getCandidates n) w1) as [rs w2].
    simpl in *. split; [eapply seed_step_twice; eassumption|].
    constructor.
    + subst r. exists l. split; [reflexivity|].
      destruct Hl as [-> | ->]; [left; reflexivity|].
      destruct Hs as [->|[He ->]]; [right; left; reflexivity|].
      right. right. split; [exact He|].
      unfold with_seed. simpl candidates. rewrite He. reflexivity.
    + eapply Forall_impl; [|exact Hall].
      intros r'. apply listed_from_step. exact Hs.
Qed.

Lemma stable_getCandidates : stable voting.getCandidates.
Proof. unfold voting.getCandidates, uncaught. stability. Qed.

Lemma initializeCandidates_on_empty (w : World) (d : Db) :
  handle w = Some d -> candidates (store w) = [] -> fault_at 0 w = false ->
  initializeCandidates w
  = (Ok tt,
     if fault_at 1 w
     then sent (InsertCandidates candidatesList)
            (set_store (store w) (sent SelectCandidates (set_db (Some d) w)))
     else set_store (with_seed (store w))
            (sent (InsertCandidates candidatesList)
               (set_store (store w)
                  (sent SelectCandidates (set_db (Some d) w))))).
Proof.
  intros Hd He F0.
  unfold initializeCandidates, bind. rewrite getDb_eq, Hd.
  unfold try_catch, bind, select_candidates, statement, ret.
  rewrite next_fault_at, fault_at_set_db, F0. cbv beta iota.
  rewrite store_set_db, He.
  rewrite insert_candidates_eq. autorewrite with world.
  destruct (fault_at 1 w); reflexivity.
Qed.

(** The first listing of a store without candidates, with the handle there
    and its three statements answered: the five candidates are inserted and
    listed. *)
Lemma first_listing_seeds (w : World) :
  available w = true -> candidates (store w) = [] ->
  fault_at 0 w = false -> fault_at 1 w = false -> fault_at 2 w = false ->
  fst (voting.getCandidates w)
  = Ok (fresh_candidates (candidates_auto (store w)) candidatesList)
  /\ store (snd (voting.getCandidates w)) = with_seed (store w).
Proof.
  intros Ha He F0 F1 F2. destruct (available_handle w Ha) as [d Hd].
  unfold voting.getCandidates, uncaught, try_catch, bind.
  rewrite (initializeCandidates_on_empty w d Hd He F0), F1.
  rewrite getAllCandidates_eq.
  change (handle (set_store _ _)) with (Some d).
  rewrite next_fault_at. autorewrite with world. rewrite F2.
  simpl fst; simpl snd. autorewrite with world.
  split; [|reflexivity].
  unfold with_seed, with_candidates. simpl candidates. rewrite He.
  reflexivity.
Qed.

Lemma available_settled (w w' : World) :
  settled w w' -> available w = true -> no_faults w = true ->
  available w' = true /\ no_faults w' = true.
Proof.
  intros [Hh Hf] Ha Hn. split; [|auto].
  unfold available in *. rewrite Hh. exact Ha.
Qed.

(** Listing a store that has candidates, with the handle there and no
    statement failing, gives its candidates and changes nothing. *)
Lemma listing_a_store_with_candidates (w : World) :
  candidates (store w) <> [] -> available w = true -> no_faults w = true ->
  fst (voting.getCandidates w) = Ok (candidates (store w))
  /\ store (snd (voting.getCandidates w)) = store w.
Proof.
  intros Hne Ha Hf.
  unfold voting.getCandidates, uncaught, try_catch, bind.
  pose proof (stable_initializeCandidates w) as [Hh1 Hf1].
  destruct (initializeCandidates_run w) as [Hr Hstep].
  destruct (initializeCandidates w) as [r w1]. simpl in *. subst r.
  pose proof (getAllCandidates_store w1) as Hg.
  rewrite getAllCandidates_eq in Hg |- *.
  assert (Hs1 : store w1 = store w).
  { destruct Hstep as [->|[He _]]; [reflexivity|contradiction]. }
  destruct (available_handle w Ha) as [d Hd].
  rewrite Hh1, Hd in *.
  rewrite next_fault_at, (no_faults_fault_at _ _ (Hf1 Hf)) in *.
  simpl in *. rewrite Hs1. split; reflexivity.
Qed.

Lemma listing_in_a_row (n : nat) :
  forall w,
    candidates (store w) <> [] -> available w = true -> no_faults w = true ->
    store (snd (in_a_row (repeat voting.getCandidates n) w)) = store w
    /\ Forall (fun r => r = Ok (candidates (store w)))
              (fst (in_a_row (repeat voting.getCandidates n) w)).
Proof.
  induction n as [|n IH]; intros w Hne Ha Hf; simpl; [auto|].
  destruct (listing_a_store_with_candidates w Hne Ha Hf) as (Hr & Hs1).
  destruct (available_settled _ _ (stable_getCandidates w) Ha Hf)
    as [Ha1 Hf1].
  destruct (voting.getCandidates w) as [r w1]. simpl in *.
  rewrite <- Hs1 in Hne.
  destruct (IH _ Hne Ha1 Hf1) as [IHs IHl]. rewrite Hs1 in IHs, IHl.
  destruct (in_a_row (repeat voting.getCandidates n) w1) as [rs w2].
  simpl in *. split; [exact IHs|]. constructor; assumption.
Qed.

(** On a store without candidates, with the handle there and no statement
    failing, the first call seeds the five candidates and every call lists
    the same five. *)
Lemma seeding_in_a_row (n : nat) (w : World) :
  available w = true -> no_faults w = true -> candidates (store w) = [] ->
  store (snd (in_a_row (repeat voting.getCandidates (S n)) w))
  = with_seed (store w)
  /\ Forall (fun r => r = Ok (fresh_candidates (candidates_auto (store w))
                                               candidatesList))
            (fst (in_a_row (repeat voting.getCandidates (S n)) w)).
Proof.
  intros Ha Hf He.
  change (repeat voting.getCandidates (S n))
    with (voting.getCandidates :: repeat voting.getCandidates n).
  cbn [in_a_row].
  destruct (first_listing_seeds w Ha He) as [Hr Hs];
    try (apply no_faults_fault_at; exact Hf).
  destruct (available_settled _ _ (stable_getCandidates w) Ha Hf)
    as [Ha1 Hf1].
  destruct (voting.getCandidates w) as [r w1]. simpl in *.
  assert (Hc : candidates (store w1)
               = fresh_candidates (candidates_auto (store w)) candidatesList).
  { rewrite Hs. unfold with_seed, with_candidates. simpl candidates.
    rewrite He. reflexivity. }
  assert (Hne : candidates (store w1) <> []) by (rewrite Hc; discriminate).
  destruct (listing_in_a_row n w1 Hne Ha1 Hf1) as [IHs IHl].
  rewrite Hc in IHl. rewrite Hs in IHs.
  destruct (in_a_row (repeat voting.getCandidates n) w1) as [rs w2].
  simpl in *. split; [exact IHs|]. constructor; assumption.
Qed.

(** C7. Seeding is idempotent. After any number of calls of
    [voting.getCandidates] in a row, from any world, the store is the one
    the calls started on, or that store seeded, the latter only if it had no
    candidate; every call answers (it never throws) with no candidate, the
    candidates there were, or the seed; and the seed is five rows, each with
    zero votes. Seeding does happen: on a store without candidates, with the
    handle there, a first call whose three statements are answered inserts
    the five rows and lists them; and when no statement fails, after one
    call and any number more the store is the store seeded once and every
    call has listed the same five rows. On a store that has candidates,
    when no statement fails, the calls change nothing and list the
    candidates there are. *)
Theorem seeding_idempotent (w : World) (n : nat) :
  seed_step (store w)
            (store (snd (in_a_row (repeat voting.getCandidates n) w)))
  /\ Forall (listed_from (store w))
            (fst (in_a_row (repeat voting.getCandidates n) w))
  /\ List.length (fresh_candidates (candidates_auto (store w)) candidatesList)
     = 5%nat
  /\ Forall (fun c => Candidate.votes c = 0)
            (fresh_candidates (candidates_auto (store w)) candidatesList)
  /\ (available w = true -> candidates (store w) = [] ->
      fault_at 0 w = false -> fault_at 1 w = false -> fault_at 2 w = false ->
      fst (voting.getCandidates w)
      = Ok (fresh_candidates (candidates_auto (store w)) candidatesList)
      /\ store (snd (voting.getCandidates w)) = with_seed (store w)
      /\ candidates (with_seed (store w))
         = fresh_candidates (candidates_auto (store w)) candidatesList)
  /\ (available w = true -> no_faults w = true ->
      candidates (store w) = [] ->
      store (snd (in_a_row (repeat voting.getCandidates (S n)) w))
      = with_seed (store w)
      /\ Forall (fun r => r = Ok (fresh_candidates
                                    (candidates_auto (store w))
                                    candidatesList))
                (fst (in_a_row (repeat voting.getCandidates (S n)) w)))
  /\ (available w = true -> no_faults w = true ->
      candidates (store w) <> [] ->
      store (snd (in_a_row (repeat voting.getCandidates n) w)) = store w
      /\ Forall (fun r => r = Ok (candidates (store w)))
                (fst (in_a_row (repeat voting.getCandidates n) w))).
Proof.
  destruct (getCandidates_in_a_row n w) as [Hs Hl].
  split; [exact Hs|]. split; [exact Hl|].
  split; [reflexivity|].
  split; [simpl; repeat constructor|].
  split; [|split].
  - intros Ha He F0 F1 F2.
    destruct (first_listing_seeds w Ha He F0 F1 F2) as [Hr Hst].
    split; [exact Hr|]. split; [exact Hst|].
    unfold with_seed, with_candidates. simpl candidates. rewrite He.
    reflexivity.
  - intros Ha Hf He. apply seeding_in_a_row; assumption.
  - intros Ha Hf Hne. apply listing_in_a_row; assumption.
Qed.

Lemma seeding_idempotent_witness :
  (available (boot empty_store []) = true
   /\ no_faults (boot empty_store []) = true
   /\ candidates (store (boot empty_store [])) = [])
  /\ store (snd (in_a_row (repeat voting.getCandidates 3)
                          (boot empty_store [])))
     = seeded_store
  /\ Forall (fun r => r = Ok (candidates seeded_store))
            (fst (in_a_row (repeat voting.getCandidates 3)
                           (boot empty_store []))).
Proof.
  split; [repeat split; reflexivity|].
  destruct (seeding_idempotent (boot empty_store []) 2)
    as (_ & _ & _ & _ & _ & Hseed & _).
  destruct (Hseed eq_refl eq_refl eq_refl) as [Hs Hl].
  split; [exact Hs|exact Hl].
Defined.

(* ------------------------------------------------------------------ *)
(** ** The two reads *)

(** The two reads never throw, whatever the world. *)
Lemma reads_never_throw (w : World) (v : string) :
  (exists l, fst (getAllCandidates w) = Ok l)
  /\ (exists b, fst (hasVoted v w) = Ok b).
Proof.
  rewrite getAllCandidates_eq, hasVoted_eq.
  destruct (handle w); [destruct (next_fault w)|]; split; eexists;
    reflexivity.
Qed.

(** C8. When the store cannot be reached, because there is no handle or
    because the statement fails, [getAllCandidates] returns the empty list
    and [hasVoted] returns false, also through the router; neither throws and
    the store is not changed. *)
Theorem reads_degrade (w : World) (v : string) :
  available w = false \/ fault_at 0 w = true ->
  fst (getAllCandidates w) = Ok []
  /\ fst (hasVoted v w) = Ok false
  /\ fst (voting.hasVoted (voting.mkHasVotedInput v) w) = Ok false
  /\ store (snd (getAllCandidates w)) = store w
  /\ store (snd (hasVoted v w)) = store w.
Proof.
  intros Hdown.
  unfold voting.hasVoted, procedure, voting.parse_hasVoted, uncaught,
    try_catch.
  simpl voting.hv_voterIdentifier.
  rewrite getAllCandidates_eq, hasVoted_eq, next_fault_at.
  unfold available in Hdown.
  destruct (handle w) as [d|].
  - destruct Hdown as [Hd|Hf]; [discriminate|]. rewrite Hf.
    repeat split; reflexivity.
  - repeat split; reflexivity.
Qed.

Lemma reads_degrade_witness :
  (available world_after_v1_failing_read = false
   \/ fault_at 0 world_after_v1_failing_read = true)
  /\ fst (getAllCandidates world_after_v1_failing_read) = Ok []
  /\ fst (hasVoted "v1" world_after_v1_failing_read) = Ok false.
Proof.
  split; [right; reflexivity|].
  destruct (reads_degrade world_after_v1_failing_read "v1")
    as (Hl & Hv & _); [right; reflexivity|].
  split; [exact Hl|exact Hv].
Defined.

(** With no handle and with every statement failing, listing the candidates
    through the router gives the empty list as well. *)
Lemma getCandidates_degrades (w : World) :
  available w = false \/ (fault_at 0 w = true /\ fault_at 1 w = true) ->
  fst (voting.getCandidates w) = Ok []
  /\ store (snd (voting.getCandidates w)) = store w.
Proof.
  intros Hdown.
  unfold voting.getCandidates, uncaught, try_catch, bind.
  unfold initializeCandidates, bind. rewrite getDb_eq.
  unfold available in Hdown.
  destruct (handle w) as [d|] eqn:Hd.
  - destruct Hdown as [Hx|[F0 F1]]; [discriminate|].
    unfold try_catch, bind, select_candidates, statement, ret.
    rewrite next_fault_at, fault_at_set_db, F0.
    rewrite getAllCandidates_eq.
    change (handle (sent SelectCandidates (set_db (Some d) w)))
      with (Some d).
    rewrite next_fault_at, fault_at_sent, fault_at_set_db, F1.
    split; reflexivity.
  - assert (Hh : handle (set_db None w) = None).
    { rewrite <- Hd at 1. rewrite handle_set_db. exact Hd. }
    unfold ret. rewrite getAllCandidates_eq, Hh. split; reflexivity.
Qed.

(* ------------------------------------------------------------------ *)
(** ** The input parsers *)

Lemma parse_rejects_malformed (i : voting.VoteInput) :
  malformed i ->
  exists issues, issues <> [] /\ voting.parse_vote i = Throw issues.
Proof.
  unfold malformed, voting.parse_vote, voting.candidateId_issues,
    voting.voterIdentifier_issues.
  intros [Hv|[Hn|(z & Hz & Hout)]].
  - rewrite Hv. cbn [String.length Nat.leb].
    destruct (voting.candidateId i) as [z|].
    + destruct (_ ++ _) eqn:E.
      * apply app_eq_nil in E. destruct E as [_ E]. discriminate.
      * eexists; split; [|reflexivity]. discriminate.
    + eexists; split; [|reflexivity]. discriminate.
  - rewrite Hn. eexists; split; [|reflexivity]. discriminate.
  - rewrite Hz.
    destruct (_ ++ _) eqn:E; [|eexists; split; [|reflexivity]; discriminate].
    exfalso. apply app_eq_nil in E. destruct E as [E _].
    apply app_eq_nil in E. destruct E as [Ebig Epos].
    destruct Hout as [Hle|Hgt].
    + apply Z.ltb_ge in Hle. rewrite Hle in Epos. discriminate.
    + apply Z.ltb_lt in Hgt. rewrite Hgt in Ebig. discriminate.
Qed.

(** [voting.vote] turns a malformed input away before anything else happens:
    the world, and so the store, the handle and the statements sent, is the
    one before the call. *)
Lemma vote_rejects_malformed (i : voting.VoteInput) (w : World) :
  malformed i ->
  exists issues,
    issues <> []
    /\ voting.vote i w = (Throw (InputParseError issues), w).
Proof.
  intros Hm. destruct (parse_rejects_malformed i Hm) as (issues & Hne & Hp).
  exists issues. split; [exact Hne|].
  unfold voting.vote, procedure. rewrite Hp. reflexivity.
Qed.

(** C9. The parser of [voting.hasVoted] accepts the empty voter identifier:
    the call is not turned away, the existence read for the empty string is
    sent to the store, and the caller gets its answer. *)
Theorem hasVoted_accepts_empty_identifier :
  voting.parse_hasVoted (voting.mkHasVotedInput "") = Ok EmptyString
  /\ fst (voting.hasVoted (voting.mkHasVotedInput "") seeded_world)
     = Ok false
  /\ trace (snd (voting.hasVoted (voting.mkHasVotedInput "") seeded_world))
     = SelectVotesWhereVoter "" :: trace seeded_world.
Proof. repeat split; reflexivity. Qed.

(* ------------------------------------------------------------------ *)
(** ** The existence read that fails *)

(** When the existence read of [addVote] fails and its other statements are
    answered, the vote for an existing candidate is recorded whether or not
    the voter, whose identifier fits the column, has a row. *)
Lemma addVote_after_failed_existence_read (cid : Z) (v : string) (w : World) :
  available w = true ->
  fault_at 0 w = true ->
  fault_at 1 w = false -> fault_at 2 w = false -> fault_at 3 w = false ->
  has_candidate cid (store w) = true -> fits_column v = true ->
  fst (hasVoted v w) = Ok false
  /\ fst (addVote cid v w) = Ok true
  /\ votes (store (snd (addVote cid v w)))
     = votes (store w) ++ [Vote.mk (votes_auto (store w)) cid v].
Proof.
  intros Ha F0 F1 F2 F3 Hc Hfit.
  destruct (available_handle w Ha) as [d Hd].
  destruct (existsb_find _ _ Hc) as (c0 & Hfind & _ & _).
  pose proof (addVote_run cid v w) as [Hr Hs].
  unfold addVote_outcome in Hr, Hs.
  rewrite Hd, F0, F1, F2, F3, Hc, Hfit, Hfind in Hr, Hs. simpl in Hr, Hs.
  rewrite hasVoted_eq, Hd, next_fault_at, F0, Hr, Hs.
  repeat split; reflexivity.
Qed.

(** C10. [addVote] takes a failed existence read for "has not voted": there
    is a world in which the voter identifier has a row, the existence read
    fails, [hasVoted] answers false, and [addVote] inserts a second row for
    the identifier and returns true. *)
Theorem failed_existence_read_admits_second_vote :
  exists (w : World) (cid : Z) (v : string),
    voted v (store w) = true
    /\ available w = true /\ fault_at 0 w = true
    /\ fst (hasVoted v w) = Ok false
    /\ fst (addVote cid v w) = Ok true
    /\ List.length (rows_of_voter v (store w)) = 1%nat
    /\ List.length (rows_of_voter v (store (snd (addVote cid v w)))) = 2%nat.
Proof.
  exists world_after_v1_failing_read, 2, "v1"%string.
  repeat split; reflexivity.
Qed.

(* ------------------------------------------------------------------ *)
(** ** One vote per voter identifier *)

Lemma rows_of_voter_with_vote (cid : Z) (v v' : string) (s : Store) :
  rows_of_voter v' (with_vote cid v s)
  = rows_of_voter v' s
    ++ (if String.eqb v v' then [Vote.mk (votes_auto s) cid v] else []).
Proof.
  unfold rows_of_voter, with_vote. simpl votes.
  rewrite filter_app. reflexivity.
Qed.

Lemma one_vote_with_vote (cid : Z) (v : string) (s : Store) :
  voted v s = false -> one_vote s -> one_vote (with_vote cid v s).
Proof.
  intros Hv H1 v'. rewrite rows_of_voter_with_vote, length_app.
  destruct (String.eqb_spec v v') as [<-|Hne]; simpl.
  - unfold rows_of_voter. unfold voted in Hv.
    rewrite (existsb_false_filter _ _ Hv). simpl. lia.
  - specialize (H1 v'). lia.
Qed.

(** A call of [addVote] whose existence read is answered keeps the
    invariant, whatever happens to its other statements. *)
Lemma addVote_keeps_one_vote (cid : Z) (v : string) (w : World) :
  fault_at 0 w = false ->
  one_vote (store w) -> one_vote (store (snd (addVote cid v w))).
Proof.
  intros F0 H1. destruct (addVote_run cid v w) as [_ Hs]. rewrite Hs.
  unfold addVote_outcome. rewrite F0. simpl negb. simpl andb.
  destruct (handle w); [|exact H1].
  destruct (voted v (store w)) eqn:Hv; [exact H1|].
  pose proof (one_vote_with_vote cid v (store w) Hv H1) as H2.
  destruct (fault_at 1 w); [exact H1|].
  destruct (fits_column v); simpl negb; cbv iota; [|exact H1].
  destruct (has_candidate cid (store w)); simpl negb; cbv iota;
    [|exact H1].
  destruct (fault_at 2 w); [exact H2|].
  destruct (find _ _); [|exact H2].
  destruct (fault_at 3 w); exact H2.
Qed.

Lemma stable_vote (i : voting.VoteInput) : stable (voting.vote i).
Proof.
  unfold voting.vote, procedure.
  destruct (voting.parse_vote i); [|apply stable_throw].
  stability.
Qed.

Lemma vote_store (i : voting.VoteInput) (w : World) :
  store (snd (voting.vote i w)) = store w
  \/ exists cid v, store (snd (voting.vote i w))
                   = store (snd (addVote cid v w)).
Proof.
  unfold voting.vote, procedure.
  destruct (voting.parse_vote i) as [[cid v]|issues]; [|left; reflexivity].
  right. exists cid, v. unfold try_catch, bind. simpl fst; simpl snd.
  destruct (addVote cid v w) as [[b|e] w1]; simpl snd.
  - pose proof (getAllCandidates_store w1) as Hg.
    destruct (getAllCandidates w1) as [[l|e] w2]; [exact Hg|].
    unfold throw. destruct (includes _ _); exact Hg.
  - unfold throw. destruct (includes _ _); reflexivity.
Qed.

(** While no statement fails, votes in a row keep the invariant. *)
Lemma votes_in_a_row_keep_one_vote (inputs : list voting.VoteInput) :
  forall w,
    no_faults w = true -> one_vote (store w) ->
    one_vote (store (snd (in_a_row (map voting.vote inputs) w))).
Proof.
  induction inputs as [|i inputs IH]; intros w Hf H1; simpl; [exact H1|].
  pose proof (stable_vote i w) as [_ Hf1]. specialize (Hf1 Hf).
  assert (H2 : one_vote (store (snd (voting.vote i w)))).
  { destruct (vote_store i w) as [->|(cid & v & ->)]; [exact H1|].
    apply addVote_keeps_one_vote; [|exact H1].
    apply no_faults_fault_at. exact Hf. }
  destruct (voting.vote i w) as [r w1]. simpl in *.
  specialize (IH w1 Hf1 H2).
  destruct (in_a_row (map voting.vote inputs) w1) as [rs w2]. exact IH.
Qed.

(** C1. The invariant does not hold in every reachable store. A process is
    started on the empty store, lists the candidates and takes two votes of
    "v1" for candidate 1; the existence read of the second vote fails. Both
    votes answer success and [votes] holds two rows for "v1". *)
Theorem two_rows_for_one_voter :
  one_vote (store world_ninth_statement_fails)
  /\ fst (list_then_vote_twice world_ninth_statement_fails)
     = (Ok (voting.mkVoteOutput true (candidates store_after_v1)),
        Ok (voting.mkVoteOutput true
              (count_vote 1 (candidates store_after_v1))))
  /\ rows_of_voter "v1"
       (store (snd (list_then_vote_twice world_ninth_statement_fails)))
     = [Vote.mk 1 1 "v1"; Vote.mk 2 1 "v1"]
  /\ ~ one_vote
         (store (snd (list_then_vote_twice world_ninth_statement_fails))).
Proof.
  split; [intros v; simpl; lia|].
  split; [reflexivity|]. split; [reflexivity|].
  intros H. specialize (H "v1"%string).
  change (rows_of_voter "v1"
            (store (snd (list_then_vote_twice world_ninth_statement_fails))))
    with [Vote.mk 1 1 "v1"; Vote.mk 2 1 "v1"] in H.
  simpl in H. lia.
Qed.

(* ------------------------------------------------------------------ *)
(** ** Two calls in flight *)

(** A call that runs its statements with no other call in between does what
    [addVote] does for a voter identifier that fits its column. *)
Lemma alone_as_addVote (cid : Z) (v : string) (w : World) :
  available w = true -> no_faults w = true -> fits_column v = true ->
  Interleaved.run [0; 0; 0; 0]%nat (store w) [Interleaved.start cid v]
  = (snd (addVote_outcome cid v w),
     [Interleaved.mkCall cid v
        (Interleaved.finished (fst (addVote_outcome cid v w)))]).
Proof.
  intros Ha Hf Hfit. destruct (available_handle w Ha) as [d Hd].
  unfold addVote_outcome. rewrite Hd, Hfit, !(no_faults_fault_at w _ Hf).
  simpl negb. simpl andb.
  unfold Interleaved.run, Interleaved.step_nth, Interleaved.start.
  unfold Interleaved.step at 1. simpl Interleaved.pc.
  simpl Interleaved.voterIdentifier.
  destruct (voted v (store w)); [reflexivity|].
  unfold Interleaved.at_pc at 1. simpl.
  unfold Interleaved.step at 1. simpl.
  destruct (has_candidate cid (store w)); [|reflexivity].
  unfold Interleaved.step at 1. simpl.
  destruct (find _ _); reflexivity.
Qed.

(** Two requests of the voter "v1" for candidate 1 on the seeded store, their
    statements taking turns: both pass the existence check before either
    inserts and both read the count before either writes it. Both return
    true, "v1" has two rows, and candidate 1 counts one vote for them. *)
Lemma two_calls_taking_turns :
  Interleaved.run [0; 1; 0; 1; 0; 1; 0; 1]%nat seeded_store
    [Interleaved.start 1 "v1"; Interleaved.start 1 "v1"]
  = ({| candidates := candidates store_after_v1;
        votes := [Vote.mk 1 1 "v1"; Vote.mk 2 1 "v1"];
        candidates_auto := 6;
        votes_auto := 3 |},
     [Interleaved.mkCall 1 "v1" (Interleaved.Returned true);
      Interleaved.mkCall 1 "v1" (Interleaved.Returned true)]).
Proof. reflexivity. Qed.

Lemma taking_turns_breaks_both_invariants :
  ~ one_vote
      (fst (Interleaved.run [0; 1; 0; 1; 0; 1; 0; 1]%nat seeded_store
              [Interleaved.start 1 "v1"; Interleaved.start 1 "v1"]))
  /\ ~ tally_consistent
         (fst (Interleaved.run [0; 1; 0; 1; 0; 1; 0; 1]%nat seeded_store
                 [Interleaved.start 1 "v1"; Interleaved.start 1 "v1"])).
Proof.
  rewrite two_calls_taking_turns. simpl fst. split.
  - intros H. specialize (H "v1"%string). simpl in H. lia.
  - intros H.
    specialize (H (Candidate.mk 1 (nth 0 candidatesList EmptyString) 1)).
    simpl in H. specialize (H (or_introl eq_refl)). discriminate.
Qed.

(* ------------------------------------------------------------------ *)
(** ** What a request can do to the store *)

Lemma hasVoted_store (v : string) (w : World) :
  store (snd (hasVoted v w)) = store w.
Proof.
  rewrite hasVoted_eq.
  destruct (handle w); [destruct (next_fault w)|]; reflexivity.
Qed.

Lemma voting_hasVoted_store (i : voting.HasVotedInput) (w : World) :
  store (snd (voting.hasVoted i w)) = store w.
Proof.
  unfold voting.hasVoted, procedure, voting.parse_hasVoted, uncaught,
    try_catch.
  pose proof (hasVoted_store (voting.hv_voterIdentifier i) w) as H.
  destruct (hasVoted (voting.hv_voterIdentifier i) w) as [[b|e] w1];
    exact H.
Qed.

Lemma addVote_store_step (cid : Z) (v : string) (w : World) :
  store_step (store w) (store (snd (addVote cid v w))).
Proof.
  destruct (addVote_run cid v w) as [_ Hs]. rewrite Hs.
  unfold addVote_outcome, store_step.
  destruct (handle w); [|left; reflexivity].
  destruct (negb (fault_at 0 w) && voted v (store w)); [left; reflexivity|].
  destruct (fault_at 1 w); [left; reflexivity|].
  destruct (fits_column v); simpl negb; cbv iota; [|left; reflexivity].
  destruct (has_candidate cid (store w)) eqn:Hc; simpl negb; cbv iota;
    [|left; reflexivity].
  assert (Hrow : store_step (store w) (with_vote cid v (store w))).
  { right. right. exists cid, v. split; [exact Hc|left; reflexivity]. }
  destruct (fault_at 2 w); [exact Hrow|].
  destruct (find _ _) as [c0|] eqn:Hfind; [|exact Hrow].
  destruct (fault_at 3 w); [exact Hrow|].
  apply find_some in Hfind. destruct Hfind as [Hin Hid].
  apply Z.eqb_eq in Hid.
  right. right. exists cid, v. split; [exact Hc|].
  right. exists c0. auto.
Qed.

Lemma serve_store_step (r : Request) (w : World) :
  store_step (store w) (store (serve r w)).
Proof.
  destruct r as [|i|i]; simpl serve.
  - destruct (getCandidates_run w) as [[->|[He ->]] _].
    + left. reflexivity.
    + right. left. auto.
  - rewrite voting_hasVoted_store. left. reflexivity.
  - destruct (vote_store i w) as [->|(cid & v & ->)].
    + left. reflexivity.
    + apply addVote_store_step.
Qed.

(* ------------------------------------------------------------------ *)
(** ** The schema's promises are kept *)

Lemma fresh_candidates_ids (names : list string) :
  forall next c,
    In c (fresh_candidates next names) ->
    next <= Candidate.id c < next + Z.of_nat (List.length names)
    /\ Candidate.votes c = 0.
Proof.
  induction names as [|n names IH]; intros next c; simpl; [contradiction|].
  intros [<-|Hin]; simpl; [lia|].
  apply IH in Hin. lia.
Qed.

Lemma fresh_candidates_NoDup (names : list string) :
  forall next, NoDup (map Candidate.id (fresh_candidates next names)).
Proof.
  induction names as [|n names IH]; intros next; simpl; constructor.
  - intros Hin. apply in_map_iff in Hin. destruct Hin as (c & Hid & Hin).
    apply fresh_candidates_ids in Hin. simpl in Hid. lia.
  - apply IH.
Qed.

Lemma fresh_candidates_names (names : list string) :
  forall next, map Candidate.name (fresh_candidates next names) = names.
Proof.
  induction names as [|n names IH]; intros next; simpl; [reflexivity|].
  f_equal. apply IH.
Qed.


Lemma ids_with_count (cid n : Z) (s : Store) :
  map Candidate.id (candidates (with_count cid n s))
  = map Candidate.id (candidates s).
Proof.
  unfold with_count. simpl candidates. rewrite map_map.
  apply map_ext. intros c. destruct (Candidate.id c =? cid); reflexivity.
Qed.

Lemma names_with_count (cid n : Z) (s : Store) :
  map Candidate.name (candidates (with_count cid n s))
  = map Candidate.name (candidates s).
Proof.
  unfold with_count. simpl candidates. rewrite map_map.
  apply map_ext. intros c. destruct (Candidate.id c =? cid); reflexivity.
Qed.

Lemma has_candidate_ids (c : Z) (s : Store) :
  has_candidate c s = existsb (fun i => i =? c) (map Candidate.id (candidates s)).
Proof.
  unfold has_candidate. induction (candidates s) as [|a l IH]; simpl;
    [reflexivity|]. rewrite IH. reflexivity.
Qed.

Lemma has_candidate_with_count (c cid n : Z) (s : Store) :
  has_candidate c (with_count cid n s) = has_candidate c s.
Proof. rewrite !has_candidate_ids, ids_with_count. reflexivity. Qed.

Lemma has_candidate_with_candidates (c : Z) (names : list string) (s : Store) :
  has_candidate c s = true ->
  has_candidate c (with_candidates names s) = true.
Proof.
  unfold has_candidate, with_candidates. simpl candidates.
  rewrite existsb_app. intros ->. reflexivity.
Qed.

Lemma well_formed_empty_store : well_formed empty_store.
Proof.
  constructor; simpl; try constructor; try contradiction; lia.
Qed.

Lemma well_formed_with_vote (cid : Z) (v : string) (s : Store) :
  well_formed s -> has_candidate cid s = true ->
  well_formed (with_vote cid v s).
Proof.
  intros [Hci Hcr Hvi Hvr Hfk Hcn [Ha1 Ha2]] Hc.
  constructor; unfold with_vote; simpl candidates; simpl votes;
    simpl candidates_auto; simpl votes_auto; auto.
  - rewrite map_app. apply NoDup_app; [exact Hvi|simpl; repeat constructor; auto|].
    intros i Hin [<-|[]]. apply in_map_iff in Hin.
    destruct Hin as (r & Hid & Hin). apply Hvr in Hin. simpl in Hid. lia.
  - intros r Hin. apply in_app_or in Hin. destruct Hin as [Hin|[<-|[]]].
    + apply Hvr in Hin. lia.
    + simpl. lia.
  - intros r Hin. apply in_app_or in Hin.
    change (has_candidate (Vote.candidateId r) s = true).
    destruct Hin as [Hin|[<-|[]]]; [apply Hfk; exact Hin|exact Hc].
  - split; lia.
Qed.

Lemma well_formed_with_count (cid n : Z) (s : Store) :
  well_formed s -> 0 <= n -> well_formed (with_count cid n s).
Proof.
  intros [Hci Hcr Hvi Hvr Hfk Hcn Ha] Hn.
  constructor; auto.
  - rewrite ids_with_count. exact Hci.
  - intros c Hin. unfold with_count in Hin. simpl candidates in Hin.
    apply in_map_iff in Hin. destruct Hin as (c1 & <- & Hin).
    simpl candidates_auto.
    destruct (Candidate.id c1 =? cid); simpl; apply (Hcr c1 Hin).
  - intros r Hin. rewrite has_candidate_with_count. apply Hfk. exact Hin.
  - intros c Hin. unfold with_count in Hin. simpl candidates in Hin.
    apply in_map_iff in Hin. destruct Hin as (c1 & <- & Hin).
    destruct (Candidate.id c1 =? cid); [exact Hn|apply (Hcn c1 Hin)].
Qed.

Lemma well_formed_with_candidates (names : list string) (s : Store) :
  well_formed s -> well_formed (with_candidates names s).
Proof.
  intros [Hci Hcr Hvi Hvr Hfk Hcn [Ha1 Ha2]].
  constructor; unfold with_candidates; simpl candidates; simpl votes;
    simpl candidates_auto; simpl votes_auto; auto.
  - rewrite map_app.
    apply NoDup_app; [exact Hci|apply fresh_candidates_NoDup|].
    intros i Hin Hin'. apply in_map_iff in Hin, Hin'.
    destruct Hin as (c & Hid & Hin). destruct Hin' as (c' & Hid' & Hin').
    apply Hcr in Hin. apply fresh_candidates_ids in Hin'. lia.
  - intros c Hin. apply in_app_or in Hin. destruct Hin as [Hin|Hin].
    + apply Hcr in Hin. lia.
    + apply fresh_candidates_ids in Hin. lia.
  - intros r Hin. apply has_candidate_with_candidates, Hfk, Hin.
  - intros c Hin. apply in_app_or in Hin. destruct Hin as [Hin|Hin].
    + apply Hcn, Hin.
    + apply fresh_candidates_ids in Hin. lia.
  - split; lia.
Qed.

Lemma well_formed_store_step (s s' : Store) :
  store_step s s' -> well_formed s -> well_formed s'.
Proof.
  intros [->|[[_ ->]|(cid & v & Hc & [->|(c0 & Hin & Hid & ->)])]] Hwf.
  - exact Hwf.
  - apply well_formed_with_candidates. exact Hwf.
  - apply well_formed_with_vote; assumption.
  - apply well_formed_with_count.
    + apply well_formed_with_vote; assumption.
    + pose proof (wf_counts s Hwf c0 Hin). lia.
Qed.

Lemma serve_all_app (rs rs' : list Request) (w : World) :
  serve_all (rs ++ rs') w = serve_all rs' (serve_all rs w).
Proof. unfold serve_all. apply fold_left_app. Qed.

(** X1. The promises of the schema are an invariant of the router: if the
    store is well formed (unique, positive primary keys below the counters,
    every vote referencing a candidate, no negative count), it is well formed
    after any requests, whichever statements failed on the way. *)
Theorem requests_keep_store_well_formed (rs : list Request) (w : World) :
  well_formed (store w) -> well_formed (store (serve_all rs w)).
Proof.
  revert w. induction rs as [|r rs IH]; intros w Hwf; [exact Hwf|].
  simpl. apply IH.
  eapply well_formed_store_step; [apply serve_store_step|exact Hwf].
Qed.

Lemma requests_keep_store_well_formed_witness :
  well_formed (store (boot empty_store [false; true]))
  /\ well_formed
       (store (serve_all
                 [GetCandidates; GetCandidates;
                  CastVote (voting.mkVoteInput (Integer 2) "v1");
                  HasVoted (voting.mkHasVotedInput "v1")]
                 (boot empty_store [false; true]))).
Proof.
  split; [exact well_formed_empty_store|].
  apply (requests_keep_store_well_formed _ (boot empty_store [false; true])).
  exact well_formed_empty_store.
Defined.

(* ------------------------------------------------------------------ *)
(** ** Rows are never lost *)

Lemma store_step_votes (s s' : Store) :
  store_step s s' ->
  exists rows, votes s' = votes s ++ rows /\ (List.length rows <= 1)%nat.
Proof.
  intros [->|[[_ ->]|(cid & v & _ & [->|(c0 & _ & _ & ->)])]].
  - exists []. rewrite app_nil_r. auto.
  - exists []. rewrite app_nil_r. auto.
  - eexists. split; [reflexivity|]. simpl. lia.
  - eexists. split; [reflexivity|]. simpl. lia.
Qed.

(** X2. The vote rows are append-only: after any requests the [votes] table
    is the table before followed by new rows, at most one for each request;
    no request removes or rewrites a row. *)
Theorem requests_only_append_votes (rs : list Request) (w : World) :
  exists rows,
    votes (store (serve_all rs w)) = votes (store w) ++ rows
    /\ (List.length rows <= List.length rs)%nat.
Proof.
  revert w. induction rs as [|r rs IH]; intros w.
  - exists []. simpl. rewrite app_nil_r. auto.
  - simpl. destruct (IH (serve r w)) as (rows' & Hv' & Hl').
    destruct (store_step_votes _ _ (serve_store_step r w))
      as (rows & Hv & Hl).
    exists (rows ++ rows'). rewrite Hv', Hv, app_assoc, length_app.
    split; [reflexivity|lia].
Qed.







Lemma well_formed_seeded_store : well_formed seeded_store.
Proof.
  apply (well_formed_with_candidates candidatesList empty_store).
  exact well_formed_empty_store.
Qed.


(* ------------------------------------------------------------------ *)
(** ** The handle *)

Lemma stable_voting_hasVoted (i : voting.HasVotedInput) :
  stable (voting.hasVoted i).
Proof.
  unfold voting.hasVoted, procedure, voting.parse_hasVoted, uncaught.
  stability.
Qed.

Lemma serve_settled (r : Request) (w : World) : settled w (serve r w).
Proof.
  destruct r as [|i|i]; simpl.
  - apply stable_getCandidates.
  - apply stable_voting_hasVoted.
  - apply stable_vote.
Qed.

Lemma serve_all_settled (rs : list Request) :
  forall w, settled w (serve_all rs w).
Proof.
  induction rs as [|r rs IH]; intros w; [apply settled_refl|].
  simpl. eapply settled_trans; [apply serve_settled|apply IH].
Qed.

(** X4. [getDb] answers the same before and after any requests: a process
    that has a handle keeps it, a process that cannot make one (no
    DATABASE_URL, or [drizzle] throwing) never gets one; and a second call of
    [getDb] right after a first neither changes the answer nor the world. *)
Theorem getDb_answer_is_kept (rs : list Request) (w : World) :
  fst (@getDb Err (serve_all rs w)) = fst (@getDb Err w)
  /\ @getDb Err (snd (@getDb Err w))
     = (fst (@getDb Err w), snd (@getDb Err w)).
Proof.
  rewrite !getDb_eq. simpl fst; simpl snd. split.
  - destruct (serve_all_settled rs w) as [Hh _]. rewrite Hh. reflexivity.
  - rewrite handle_set_db. reflexivity.
Qed.

(* ------------------------------------------------------------------ *)
(** ** A vote, then the existence check *)

Lemma voted_with_vote (cid : Z) (v : string) (s : Store) :
  voted v (with_vote cid v s) = true.
Proof.
  unfold voted, with_vote. simpl votes. rewrite existsb_app. simpl.
  rewrite String.eqb_refl. apply orb_true_r.
Qed.

Lemma addVote_outcome_voted (cid : Z) (v : string) (w : World) (b : bool) :
  available w = true ->
  fst (addVote_outcome cid v w) = Ok b ->
  voted v (snd (addVote_outcome cid v w)) = true.
Proof.
  intros Ha. destruct (available_handle w Ha) as [d Hd].
  unfold addVote_outcome. rewrite Hd.
  destruct (negb (fault_at 0 w) && voted v (store w)); [discriminate|].
  destruct (fault_at 1 w); [discriminate|].
  destruct (fits_column v); simpl negb; cbv iota; [|discriminate].
  destruct (has_candidate cid (store w)); simpl negb; cbv iota;
    [|discriminate].
  destruct (fault_at 2 w); [discriminate|].
  destruct (find _ _); [destruct (fault_at 3 w); [discriminate|]|];
    intros _; apply voted_with_vote.
Qed.

(** X5. A vote can be looked up: when a process with a handle answers a
    [voting.vote] with success, a following [voting.hasVoted] for the same
    voter identifier, if its read is answered, says true. *)
Theorem hasVoted_after_vote (i : voting.VoteInput) (w : World)
    (out : voting.VoteOutput) :
  available w = true ->
  fst (voting.vote i w) = Ok out ->
  fault_at 0 (snd (voting.vote i w)) = false ->
  voted (voting.voterIdentifier i) (store (snd (voting.vote i w))) = true
  /\ fst (voting.hasVoted
            (voting.mkHasVotedInput (voting.voterIdentifier i))
            (snd (voting.vote i w)))
     = Ok true.
Proof.
  intros Ha Hok Hf.
  assert (Hv : voted (voting.voterIdentifier i)
                     (store (snd (voting.vote i w))) = true).
  { clear Hf. revert Hok. unfold voting.vote, procedure, voting.parse_vote.
    destruct (voting.candidateId i) as [z|];
      [destruct (_ ++ _)|]; try discriminate.
    unfold try_catch, bind. simpl fst; simpl snd.
    pose proof (addVote_run z (voting.voterIdentifier i) w) as [Hr Hs].
    destruct (addVote z (voting.voterIdentifier i) w) as [[b|e] w1];
      simpl in Hr, Hs.
    - pose proof (getAllCandidates_store w1) as Hg.
      destruct (getAllCandidates w1) as [[l|e] w2]; simpl in Hg.
      + intros _. simpl. rewrite Hg, Hs.
        eapply addVote_outcome_voted; [exact Ha|symmetry; exact Hr].
      + unfold throw. destruct (includes _ _); discriminate.
    - unfold throw. destruct (includes _ _); discriminate. }
  split; [exact Hv|].
  destruct (stable_vote i w) as [Hh _].
  destruct (available_handle w Ha) as [d Hd].
  unfold voting.hasVoted, procedure, voting.parse_hasVoted, uncaught,
    try_catch.
  simpl voting.hv_voterIdentifier.
  rewrite hasVoted_eq, Hh, Hd, next_fault_at, Hf, Hv. reflexivity.
Qed.

Lemma hasVoted_after_vote_witness :
  (available seeded_world = true
   /\ succeeded (fst (voting.vote (voting.mkVoteInput (Integer 4) "v7")
                                  seeded_world)) = true
   /\ fault_at 0 (snd (voting.vote (voting.mkVoteInput (Integer 4) "v7")
                                   seeded_world)) = false)
  /\ fst (voting.hasVoted
            (voting.mkHasVotedInput "v7")
            (snd (voting.vote (voting.mkVoteInput (Integer 4) "v7")
                              seeded_world)))
     = Ok true.
Proof.
  split; [repeat split; reflexivity|].
  eapply (hasVoted_after_vote (voting.mkVoteInput (Integer 4) "v7")
                              seeded_world); reflexivity.
Defined.

(* ------------------------------------------------------------------ *)
(** ** A vote whose count is not written *)

Lemma tally_broken_by_uncounted_vote (cid : Z) (v : string) (s : Store) :
  has_candidate cid s = true -> tally_consistent s ->
  ~ tally_consistent (with_vote cid v s).
Proof.
  intros Hc Ht Ht'.
  destruct (existsb_find _ _ Hc) as (c0 & _ & Hin & Hid).
  apply Z.eqb_eq in Hid.
  specialize (Ht c0 Hin). specialize (Ht' c0 Hin).
  rewrite rows_of_candidate_with_vote, Hid, Z.eqb_refl in Ht'.
  rewrite Hid in Ht. lia.
Qed.

(** X6. [addVote] opens no transaction: when the insert of the vote row is
    accepted and the lookup or the update of the count then fails, [addVote]
    throws the error of the failed statement, the caller of [voting.vote] is
    told the vote failed, and yet the row stays in [votes] with no count
    written; the voter now counts as having voted, and a tally that was
    consistent no longer is. *)
Theorem failed_count_update_keeps_vote_row (w : World) (cid : Z)
    (v : string) :
  available w = true ->
  voted v (store w) = false ->
  has_candidate cid (store w) = true ->
  (String.length v <= 255)%nat ->
  fault_at 1 w = false ->
  fault_at 2 w = true \/ fault_at 3 w = true ->
  ((exists c0,
      find (fun c => Candidate.id c =? cid) (candidates (store w)) = Some c0
      /\ fst (addVote cid v w)
         = Throw (failed (if fault_at 2 w then SelectCandidateWhereId cid
                          else UpdateCandidateVotes cid
                                 (Candidate.votes c0 + 1))
                         ER_STORE_FAILURE))
   /\ store (snd (addVote cid v w)) = with_vote cid v (store w))
  /\ (int_ids (store w) -> 0 < cid -> v <> EmptyString ->
      fst (voting.vote (voting.mkVoteInput (Integer cid) v) w)
      = Throw generic_failure_error
      /\ store (snd (voting.vote (voting.mkVoteInput (Integer cid) v) w))
         = with_vote cid v (store w))
  /\ voted v (with_vote cid v (store w)) = true
  /\ (tally_consistent (store w) ->
      ~ tally_consistent (with_vote cid v (store w))).
Proof.
  intros Ha Hv Hc Hlen F1 F23.
  destruct (available_handle w Ha) as [d Hd].
  destruct (existsb_find _ _ Hc) as (c0 & Hfind & _ & _).
  pose proof (addVote_run cid v w) as [Hr Hs].
  unfold addVote_outcome in Hr, Hs.
  rewrite Hd, Hv, Hc, F1, Hfind, (fits_column_length v Hlen), andb_false_r
    in Hr, Hs.
  simpl negb in Hr, Hs. cbv iota in Hr, Hs.
  assert (Hr' : fst (addVote cid v w)
                = Throw (failed (if fault_at 2 w
                                 then SelectCandidateWhereId cid
                                 else UpdateCandidateVotes cid
                                        (Candidate.votes c0 + 1))
                                ER_STORE_FAILURE)).
  { rewrite Hr. destruct F23 as [F|F]; rewrite F;
      [|destruct (fault_at 2 w)]; reflexivity. }
  assert (Hs' : store (snd (addVote cid v w)) = with_vote cid v (store w)).
  { rewrite Hs. destruct F23 as [F|F]; rewrite F;
      [|destruct (fault_at 2 w)]; reflexivity. }
  split; [split; [exists c0; split; assumption|assumption]|]. split.
  - intros Hint Hpos Hne.
    pose proof (conj Hpos (has_candidate_safe cid _ Hint Hc)) as Hrange.
    rewrite (vote_when_addVote_throws cid v w _ Hrange Hne Hr').
    split; [|exact Hs'].
    destruct (fault_at 2 w);
      [rewrite boundary_error_failed_lookup
      |rewrite boundary_error_failed_update]; reflexivity.
  - split; [apply voted_with_vote|].
    apply tally_broken_by_uncounted_vote. exact Hc.
Qed.

Lemma failed_count_update_keeps_vote_row_witness :
  (available (boot seeded_store [false; false; false; true]) = true
   /\ voted "v1" seeded_store = false
   /\ has_candidate 1 seeded_store = true
   /\ (String.length "v1" <= 255)%nat
   /\ fault_at 1 (boot seeded_store [false; false; false; true]) = false
   /\ fault_at 3 (boot seeded_store [false; false; false; true]) = true)
  /\ fst (voting.vote (voting.mkVoteInput (Integer 1) "v1")
                      (boot seeded_store [false; false; false; true]))
     = Throw generic_failure_error
  /\ store (snd (voting.vote (voting.mkVoteInput (Integer 1) "v1")
                             (boot seeded_store [false; false; false; true])))
     = with_vote 1 "v1" seeded_store.
Proof.
  split; [repeat split; try reflexivity; simpl; lia|].
  destruct (failed_count_update_keeps_vote_row
              (boot seeded_store [false; false; false; true]) 1 "v1")
    as (_ & Hvote & _); try reflexivity.
  - simpl. lia.
  - right. reflexivity.
  - apply Hvote; [exact int_ids_seeded_store|reflexivity|discriminate].
Defined.

(* ------------------------------------------------------------------ *)
(** ** The statements of an accepted vote *)

(** What an accepted vote sent to the store, in order, and the fate of the
    statements left to come. *)
Lemma addVote_counted_world (cid : Z) (v : string) (w : World)
    (c0 : Candidate.t) :
  available w = true ->
  fault_at 0 w = true \/ voted v (store w) = false ->
  fault_at 1 w = false -> fault_at 2 w = false -> fault_at 3 w = false ->
  has_candidate cid (store w) = true -> fits_column v = true ->
  find (fun c => Candidate.id c =? cid) (candidates (store w)) = Some c0 ->
  faults (snd (addVote cid v w)) = tl (tl (tl (tl (faults w))))
  /\ trace (snd (addVote cid v w))
     = [UpdateCandidateVotes cid (Candidate.votes c0 + 1);
        SelectCandidateWhereId cid; InsertVote cid v;
        SelectVotesWhereVoter v] ++ trace w.
Proof.
  intros Ha H0 F1 F2 F3 Hc Hfit Hfind.
  destruct (available_handle w Ha) as [d Hd].
  unfold addVote, bind, ret, throw. rewrite getDb_eq, Hd.
  unfold try_catch, bind. rewrite hasVoted_eq.
  change (handle (set_db (Some d) w)) with (Some d).
  world_step.
  assert (Hcheck : (if fault_at 0 w then false else voted v (store w))
                   = false).
  { destruct H0 as [-> | ->]; [reflexivity|].
    destruct (fault_at 0 w); reflexivity. }
  destruct (fault_at 0 w) eqn:F0; [|rewrite Hcheck]; world_step.
  all: rewrite F1, Hfit, Hc; simpl negb; world_step.
  all: rewrite F2; world_step.
  all: change (candidates (with_vote cid v (store w)))
         with (candidates (store w)); rewrite Hfind; world_step.
  all: rewrite F3; split; reflexivity.
Qed.

Lemma fault_at_after_four (w w' : World) :
  faults w' = tl (tl (tl (tl (faults w)))) -> fault_at 0 w' = fault_at 4 w.
Proof.
  unfold fault_at. intros ->.
  destruct (faults w) as [|b1 [|b2 [|b3 [|b4 [|b5 l]]]]]; reflexivity.
Qed.

(** X7. A vote can succeed without showing the tally: when the four
    statements of [addVote] are answered, the insert being accepted, and the
    re-read of the candidates then fails, [voting.vote] still answers
    success, with an empty candidate list, and the vote row and the count
    are in the store. *)
Theorem vote_stored_but_list_empty (w : World) (cid : Z) (v : string) :
  available w = true -> well_formed (store w) -> int_ids (store w) ->
  voted v (store w) = false -> has_candidate cid (store w) = true ->
  fault_at 1 w = false -> fault_at 2 w = false -> fault_at 3 w = false ->
  fault_at 4 w = true ->
  0 < cid -> v <> EmptyString -> (String.length v <= 255)%nat ->
  fst (voting.vote (voting.mkVoteInput (Integer cid) v) w)
  = Ok (voting.mkVoteOutput true [])
  /\ votes (store (snd (voting.vote (voting.mkVoteInput (Integer cid) v) w)))
     = votes (store w) ++ [Vote.mk (votes_auto (store w)) cid v]
  /\ candidates
       (store (snd (voting.vote (voting.mkVoteInput (Integer cid) v) w)))
     = count_vote cid (candidates (store w)).
Proof.
  intros Ha Hwf Hint Hv Hc F1 F2 F3 F4 Hpos Hne Hlen.
  pose proof (conj Hpos (has_candidate_safe cid _ Hint Hc)) as Hrange.
  pose proof (fits_column_length v Hlen) as Hfit.
  destruct (available_handle w Ha) as [d Hd].
  destruct (existsb_find _ _ Hc) as (c0 & Hfind & _ & _).
  pose proof (addVote_run cid v w) as [Hr Hs].
  unfold addVote_outcome in Hr, Hs.
  rewrite Hd, Hv, Hc, F1, F2, F3, Hfit, Hfind, andb_false_r in Hr, Hs.
  simpl in Hr, Hs.
  destruct (addVote_counted_world cid v w c0 Ha (or_intror Hv)
              F1 F2 F3 Hc Hfit Hfind) as [Hfaults _].
  destruct (vote_when_addVote_returns cid v w true Hrange Hne Hr)
    as (l & Hl & Hvote).
  rewrite Hvote. simpl fst; simpl snd.
  rewrite getAllCandidates_store, Hs.
  destruct (stable_addVote cid v w) as [Hh _].
  rewrite getAllCandidates_eq in Hl. rewrite Hh, Hd in Hl.
  rewrite next_fault_at, (fault_at_after_four w _ Hfaults), F4 in Hl.
  injection Hl as Hl. subst l.
  unfold with_count, with_vote; simpl candidates; simpl votes.
  rewrite (update_is_count_vote cid _ c0 (wf_candidate_ids _ Hwf) Hfind).
  repeat split; reflexivity.
Qed.

Lemma vote_stored_but_list_empty_witness :
  (available (boot seeded_store [false; false; false; false; true]) = true
   /\ voted "v1" seeded_store = false
   /\ has_candidate 5 seeded_store = true
   /\ fault_at 4 (boot seeded_store [false; false; false; false; true])
      = true)
  /\ fst (voting.vote (voting.mkVoteInput (Integer 5) "v1")
            (boot seeded_store [false; false; false; false; true]))
     = Ok (voting.mkVoteOutput true [])
  /\ votes (store (snd (voting.vote (voting.mkVoteInput (Integer 5) "v1")
              (boot seeded_store [false; false; false; false; true]))))
     = [Vote.mk 1 5 "v1"].
Proof.
  split; [repeat split; reflexivity|].
  destruct (vote_stored_but_list_empty
              (boot seeded_store [false; false; false; false; true]) 5 "v1")
    as (Hr & Hv & _); try reflexivity.
  - exact well_formed_seeded_store.
  - exact int_ids_seeded_store.
  - discriminate.
  - simpl. lia.
  - split; [exact Hr|exact Hv].
Defined.

(* ------------------------------------------------------------------ *)
(** ** What the caller of [voting.vote] can be thrown *)

Lemma parse_vote_cases (i : voting.VoteInput) :
  (exists z,
     voting.parse_vote i = Ok (z, voting.voterIdentifier i)
     /\ voting.candidateId i = Integer z /\ 0 < z <= MAX_SAFE_INTEGER
     /\ voting.voterIdentifier i <> EmptyString)
  \/ (malformed i
      /\ exists issues, issues <> [] /\ voting.parse_vote i = Throw issues).
Proof.
  assert (Hcase : (exists z, voting.candidateId i = Integer z
                             /\ 0 < z <= MAX_SAFE_INTEGER
                             /\ voting.voterIdentifier i <> EmptyString)
                  \/ malformed i).
  { unfold malformed. destruct i as [[z|] v]; simpl.
    - destruct v as [|a v]; [right; left; reflexivity|].
      destruct (Z_le_gt_dec z 0) as [Hle|Hgt];
        [right; right; right; exists z; auto|].
      destruct (Z_le_gt_dec z MAX_SAFE_INTEGER) as [Hle'|Hgt'].
      + left. exists z. repeat split; try lia. discriminate.
      + right. right. right. exists z. split; [reflexivity|right; lia].
    - right. right. left. reflexivity. }
  destruct Hcase as [(z & Hz & Hrange & Hv)|Hm].
  - left. exists z. split; [|auto].
    destruct i as [n v]. simpl in *. subst n.
    apply parse_vote_valid; assumption.
  - right. split; [exact Hm|]. apply parse_rejects_malformed. exact Hm.
Qed.

(** X8. The parser of [voting.vote] accepts exactly the inputs whose
    candidate id is a positive safe integer, from 1 to 2^53 - 1, and whose
    voter identifier is not empty, and hands both on unchanged; every other
    input is thrown back with a non-empty list of issues, in a world that is
    the one before the call: no handle made, no statement sent. *)
Theorem vote_parser_accepts_exactly (i : voting.VoteInput) :
  (exists z,
     voting.parse_vote i = Ok (z, voting.voterIdentifier i)
     /\ voting.candidateId i = Integer z /\ 0 < z <= MAX_SAFE_INTEGER
     /\ voting.voterIdentifier i <> EmptyString)
  \/ (malformed i
      /\ exists issues,
           issues <> []
           /\ forall w,
                voting.vote i w = (Throw (InputParseError issues), w)).
Proof.
  destruct (parse_vote_cases i) as [H|[Hm (issues & Hne & Hp)]];
    [left; exact H|].
  right. split; [exact Hm|]. exists issues. split; [exact Hne|].
  intros w. unfold voting.vote, procedure. rewrite Hp. reflexivity.
Qed.

(** X9. Whatever [voting.vote] throws is one of three things: the parser's
    rejection of a malformed input; the "already voted" BAD_REQUEST, and then
    the voter identifier has a row, or it has the phrase "already voted" in
    it, its insert was not accepted and the store is as before; or the one
    INTERNAL_SERVER_ERROR with the fixed message. No message of the driver
    reaches the caller. *)
Theorem vote_throws_one_of_three (i : voting.VoteInput) (w : World)
    (e : TRPCError) :
  fst (voting.vote i w) = Throw e ->
  (malformed i /\ exists issues, issues <> [] /\ e = InputParseError issues)
  \/ (e = duplicate_vote_error
      /\ (voted (voting.voterIdentifier i) (store w) = true
          \/ (includes "already voted" (voting.voterIdentifier i) = true
              /\ store (snd (voting.vote i w)) = store w)))
  \/ e = generic_failure_error.
Proof.
  intros He.
  destruct (parse_vote_cases i) as [(z & Hp & _)|[Hm (issues & Hne & Hp)]].
  - right.
    assert (Hcase : e = duplicate_vote_error \/ e = generic_failure_error).
    { revert He. unfold voting.vote, procedure. rewrite Hp.
      unfold try_catch, bind. simpl fst; simpl snd.
      destruct (addVote z (voting.voterIdentifier i) w) as [[b|e0] w1].
      - rewrite getAllCandidates_eq. unfold ret.
        destruct (handle w1); [destruct (next_fault w1)|]; discriminate.
      - unfold throw. destruct (includes _ _); simpl; intros [= <-]; auto. }
    destruct Hcase as [-> | ->]; [left|right; reflexivity].
    split; [reflexivity|].
    apply (vote_taken_for_duplicate i w). exact He.
  - left. split; [exact Hm|]. exists issues. split; [exact Hne|].
    revert He. unfold voting.vote, procedure. rewrite Hp.
    unfold throw. simpl. congruence.
Qed.

Lemma vote_throws_one_of_three_witness :
  fst (voting.vote (voting.mkVoteInput (Integer 9) "not already voted")
                   seeded_world)
  = Throw duplicate_vote_error
  /\ ((malformed (voting.mkVoteInput (Integer 9) "not already voted")
       /\ exists issues,
            issues <> [] /\ duplicate_vote_error = InputParseError issues)
      \/ (duplicate_vote_error = duplicate_vote_error
          /\ (voted "not already voted" (store seeded_world) = true
              \/ (includes "already voted" "not already voted" = true
                  /\ store (snd (voting.vote
                                   (voting.mkVoteInput
                                      (Integer 9) "not already voted")
                                   seeded_world))
                     = store seeded_world)))
      \/ duplicate_vote_error = generic_failure_error).
Proof.
  split; [reflexivity|].
  apply (vote_throws_one_of_three
           (voting.mkVoteInput (Integer 9) "not already voted") seeded_world).
  reflexivity.
Defined.

(* ------------------------------------------------------------------ *)
(** ** Calls in flight: the lost count and the double seed *)








(** A call of [initializeCandidates] that runs its statements with no other
    call in between does to the store what [initializeCandidates] does. *)
Lemma seeding_alone_as_initializeCandidates (w : World) :
  available w = true -> fault_at 0 w = false -> fault_at 1 w = false ->
  fst (SeedingInFlight.run [0; 0]%nat (store w)
         [SeedingInFlight.BeforeSelect])
  = store (snd (initializeCandidates w)).
Proof.
  intros Ha F0 F1. destruct (available_handle w Ha) as [d Hd].
  unfold initializeCandidates, bind. rewrite getDb_eq, Hd.
  unfold try_catch, bind, select_candidates, statement, ret.
  rewrite next_fault_at, fault_at_set_db, F0. cbv beta iota.
  rewrite store_set_db. simpl SeedingInFlight.run.
  destruct (candidates (store w)) as [|c l]; [|reflexivity].
  rewrite insert_candidates_eq. autorewrite with world. rewrite F1.
  reflexivity.
Qed.

(** X11. Two first calls of [initializeCandidates] whose statements take
    turns seed twice: on a store without candidates both selects find the
    table empty and both inserts run, leaving ten candidates, each name
    twice; one call after the other seeds once. *)
Theorem first_calls_taking_turns_seed_twice (s : Store) :
  candidates s = [] ->
  SeedingInFlight.run [0; 1; 0; 1]%nat s
    [SeedingInFlight.BeforeSelect; SeedingInFlight.BeforeSelect]
  = (with_seed (with_seed s),
     [SeedingInFlight.Finished; SeedingInFlight.Finished])
  /\ map Candidate.name (candidates (with_seed (with_seed s)))
     = candidatesList ++ candidatesList
  /\ SeedingInFlight.run [0; 0; 1; 1]%nat s
       [SeedingInFlight.BeforeSelect; SeedingInFlight.BeforeSelect]
     = (with_seed s, [SeedingInFlight.Finished; SeedingInFlight.Finished]).
Proof.
  intros He. split; [|split].
  - cbn [SeedingInFlight.run SeedingInFlight.step_nth].
    unfold SeedingInFlight.step at 1. rewrite He.
    unfold SeedingInFlight.step at 1. rewrite He.
    reflexivity.
  - unfold with_seed, with_candidates. cbn [candidates candidates_auto].
    rewrite He, !map_app, !fresh_candidates_names. reflexivity.
  - cbn [SeedingInFlight.run SeedingInFlight.step_nth].
    unfold SeedingInFlight.step at 1. rewrite He.
    unfold SeedingInFlight.step at 1.
    unfold SeedingInFlight.step at 1.
    cbn [candidates with_candidates]. rewrite He. reflexivity.
Qed.

Lemma first_calls_taking_turns_seed_twice_witness :
  candidates empty_store = []
  /\ List.length
       (candidates
          (fst (SeedingInFlight.run [0; 1; 0; 1]%nat empty_store
                  [SeedingInFlight.BeforeSelect;
                   SeedingInFlight.BeforeSelect])))
     = 10%nat.
Proof.
  split; [reflexivity|].
  destruct (first_calls_taking_turns_seed_twice empty_store eq_refl)
    as [-> _].
  reflexivity.
Defined.

(* ------------------------------------------------------------------ *)
(** ** [upsertUser] and [getUserByOpenId], statement by statement *)

Lemma lift_getDb_eq {E} (st : Users.State) :
  Users.lift (@getDb E) st
  = (Ok (handle (Users.process st)),
     Users.with_process
       (set_db (handle (Users.process st)) (Users.process st)) st).
Proof. unfold Users.lift. rewrite getDb_eq. reflexivity. Qed.

Lemma upsertUser_run (u : Users.InsertUser) (st : Users.State) :
  Users.in_openId u <> EmptyString ->
  Users.upsertUser u st
  = match handle (Users.process st) with
    | None =>
        (Ok tt, Users.with_process (set_db None (Users.process st)) st)
    | Some d =>
        let st1 :=
          Users.sent (upsert_statement u st)
            (Users.with_process (set_db (Some d) (Users.process st)) st) in
        if fault_at 0 (Users.process st)
        then (Throw (DriverError ER_STORE_FAILURE), st1)
        else (Ok tt,
              Users.with_users (fst (upsert_accepted u st))
                               (snd (upsert_accepted u st)) st1)
    end.
Proof.
  intros Hne. unfold Users.upsertUser.
  destruct (String.eqb_spec (Users.in_openId u) EmptyString) as [E|_];
    [contradiction|].
  unfold Users.bind at 1. rewrite lift_getDb_eq.
  destruct (handle (Users.process st)) as [d|]; [|reflexivity].
  unfold Users.try_catch, Users.bind, Users.ENV_ownerOpenId, Users.new_Date,
    Users.insert_on_duplicate_key_update, Users.statement, Users.throw.
  cbn [Users.process Users.with_process Users.ownerOpenId Users.now].
  rewrite next_fault_at, fault_at_set_db.
  destruct (fault_at 0 (Users.process st)); [reflexivity|].
  unfold upsert_accepted, upsert_statement.
  cbn [Users.sent Users.with_process Users.users Users.users_auto Users.now].
  destruct (Users.upserted _ _ _ _ _); reflexivity.
Qed.

Lemma getUserByOpenId_run (o : string) (st : Users.State) :
  Users.getUserByOpenId o st
  = match handle (Users.process st) with
    | None =>
        (Ok None, Users.with_process (set_db None (Users.process st)) st)
    | Some d =>
        let st1 :=
          Users.sent (Users.SelectUserWhereOpenId o)
            (Users.with_process (set_db (Some d) (Users.process st)) st) in
        if fault_at 0 (Users.process st)
        then (Throw (DriverError ER_STORE_FAILURE), st1)
        else (Ok (user_of o (Users.users st)), st1)
    end.
Proof.
  unfold Users.getUserByOpenId. unfold Users.bind at 1.
  rewrite lift_getDb_eq.
  destruct (handle (Users.process st)) as [d|]; [|reflexivity].
  unfold Users.bind, Users.select_user_where_openId, Users.statement,
    Users.ret.
  cbn [Users.process Users.with_process].
  rewrite next_fault_at, fault_at_set_db.
  destruct (fault_at 0 (Users.process st)); [reflexivity|].
  cbn [Users.sent Users.with_process Users.users].
  rewrite limit1_find. unfold user_of.
  destruct (find _ _); reflexivity.
Qed.

(* ------------------------------------------------------------------ *)
(** ** The table after an upsert *)

Lemma has_openId_find (o : string) (l : list Users.Row) :
  Users.has_openId o l = false -> user_of o l = None.
Proof.
  unfold Users.has_openId, user_of.
  induction l as [|r l IH]; simpl; [reflexivity|].
  destruct (String.eqb (Users.openId r) o); simpl; [discriminate|exact IH].
Qed.

Lemma has_openId_found (o : string) (l : list Users.Row) :
  Users.has_openId o l = true -> exists r, user_of o l = Some r.
Proof.
  intros H. destruct (existsb_find _ _ H) as (r & Hr & _). exists r.
  exact Hr.
Qed.

Lemma user_of_app_new (o : string) (l : list Users.Row) (r : Users.Row) :
  user_of o l = None -> Users.openId r = o -> user_of o (l ++ [r]) = Some r.
Proof.
  unfold user_of. intros Hn Ho.
  induction l as [|a l IH]; simpl in *.
  - rewrite Ho, String.eqb_refl. reflexivity.
  - destruct (String.eqb (Users.openId a) o); [discriminate|auto].
Qed.

Lemma user_of_app_other (o : string) (l : list Users.Row) (r : Users.Row) :
  Users.openId r <> o -> user_of o (l ++ [r]) = user_of o l.
Proof.
  unfold user_of. intros Ho. apply String.eqb_neq in Ho.
  induction l as [|a l IH]; simpl.
  - rewrite Ho. reflexivity.
  - destruct (String.eqb (Users.openId a) o); [reflexivity|exact IH].
Qed.

Lemma user_of_updated (o : string) (set : Users.UpdateSet)
    (l : list Users.Row) :
  user_of o (map (fun r => if String.eqb (Users.openId r) o
                           then Users.updated_row set r else r) l)
  = option_map (Users.updated_row set) (user_of o l).
Proof.
  unfold user_of. induction l as [|a l IH]; simpl; [reflexivity|].
  destruct (String.eqb (Users.openId a) o) eqn:E; simpl; rewrite E.
  - reflexivity.
  - exact IH.
Qed.

Lemma user_of_updated_other (o o' : string) (set : Users.UpdateSet)
    (l : list Users.Row) :
  o' <> o ->
  user_of o' (map (fun r => if String.eqb (Users.openId r) o
                            then Users.updated_row set r else r) l)
  = user_of o' l.
Proof.
  unfold user_of. intros Hne. induction l as [|a l IH]; simpl; [reflexivity|].
  destruct (String.eqb_spec (Users.openId a) o) as [E|E]; simpl.
  - destruct (String.eqb_spec (Users.openId a) o') as [E'|E'];
      [congruence|exact IH].
  - destruct (String.eqb (Users.openId a) o'); [reflexivity|exact IH].
Qed.

(** The row of the openId after the upsert: the row there was with the set
    written, or the new row. *)
Lemma user_of_upserted (values : Users.InsertUser) (set : Users.UpdateSet)
    (t : Z) (l : list Users.Row) (auto : Z) :
  user_of (Users.in_openId values)
          (fst (Users.upserted values set t l auto))
  = Some match user_of (Users.in_openId values) l with
         | Some r0 => Users.updated_row set r0
         | None => Users.inserted_row auto t values
         end.
Proof.
  unfold Users.upserted.
  destruct (Users.has_openId (Users.in_openId values) l) eqn:H; simpl fst.
  - rewrite user_of_updated.
    destruct (has_openId_found _ _ H) as (r & ->). reflexivity.
  - rewrite (has_openId_find _ _ H).
    apply user_of_app_new; [apply has_openId_find; exact H|reflexivity].
Qed.

Lemma user_of_upserted_other (values : Users.InsertUser)
    (set : Users.UpdateSet) (t : Z) (l : list Users.Row) (auto : Z)
    (o' : string) :
  o' <> Users.in_openId values ->
  user_of o' (fst (Users.upserted values set t l auto)) = user_of o' l.
Proof.
  intros Hne. unfold Users.upserted.
  destruct (Users.has_openId (Users.in_openId values) l); simpl fst.
  - apply user_of_updated_other. exact Hne.
  - apply user_of_app_other. simpl. congruence.
Qed.

Lemma has_openId_in (o : string) (l : list Users.Row) :
  Users.has_openId o l = false -> ~ In o (map Users.openId l).
Proof.
  unfold Users.has_openId. induction l as [|a l IH]; simpl; [tauto|].
  destruct (String.eqb_spec (Users.openId a) o) as [E|E]; simpl;
    [discriminate|].
  intros H [Ha|Hin]; [contradiction|]. exact (IH H Hin).
Qed.

Lemma upserted_well_formed (values : Users.InsertUser)
    (set : Users.UpdateSet) (t : Z) (l : list Users.Row) (auto : Z) :
  users_well_formed l auto ->
  users_well_formed (fst (Users.upserted values set t l auto))
                    (snd (Users.upserted values set t l auto)).
Proof.
  intros [Ho Hi Hr]. unfold Users.upserted.
  destruct (Users.has_openId (Users.in_openId values) l) eqn:H;
    simpl fst; simpl snd.
  - constructor.
    + rewrite map_map. erewrite map_ext; [exact Ho|].
      intros r. destruct (String.eqb _ _); reflexivity.
    + rewrite map_map. erewrite map_ext; [exact Hi|].
      intros r. destruct (String.eqb _ _); reflexivity.
    + intros r Hin. apply in_map_iff in Hin. destruct Hin as (r0 & <- & Hin).
      destruct (String.eqb _ _); simpl; apply (Hr r0 Hin).
  - constructor.
    + rewrite map_app. apply NoDup_app; [exact Ho|repeat constructor; auto|].
      intros o Hin [<-|[]]. simpl in Hin.
      exact (has_openId_in _ _ H Hin).
    + rewrite map_app. apply NoDup_app; [exact Hi|repeat constructor; auto|].
      intros i Hin [<-|[]]. simpl in Hin. apply in_map_iff in Hin.
      destruct Hin as (r & Hid & Hin). apply Hr in Hin. lia.
    + intros r Hin. apply in_app_or in Hin.
      destruct Hin as [Hin|[<-|[]]]; [apply Hr in Hin; lia|simpl; lia].
Qed.

Lemma upserted_length (values : Users.InsertUser) (set : Users.UpdateSet)
    (t : Z) (l : list Users.Row) (auto : Z) :
  (List.length l <= List.length (fst (Users.upserted values set t l auto))
   <= List.length l + 1)%nat.
Proof.
  unfold Users.upserted.
  destruct (Users.has_openId (Users.in_openId values) l); simpl fst.
  - rewrite length_map. lia.
  - rewrite length_app. simpl. lia.
Qed.

(* ------------------------------------------------------------------ *)
(** ** Properties of [upsertUser] and [getUserByOpenId] *)

Lemma updated_row_carries (u : Users.InsertUser) (owner : string) (t : Z)
    (r0 : Users.Row) :
  Users.openId r0 = Users.in_openId u ->
  carries u owner (Users.updated_row (Users.upsert_set u owner t) r0).
Proof.
  intros Ho. unfold carries, Users.upsert_set, Users.upsert_role,
    Users.no_keys, Users.updated_row.
  destruct u as [o n e lm ls ro]. simpl in *.
  destruct n, e, lm, ls, ro; simpl;
    destruct (String.eqb_spec o owner); simpl;
    repeat split; intros; try congruence.
Qed.

Lemma inserted_row_carries (u : Users.InsertUser) (owner : string)
    (t auto : Z) :
  carries u owner
          (Users.inserted_row auto t (Users.upsert_values u owner t)).
Proof.
  unfold carries, Users.upsert_values, Users.upsert_role,
    Users.inserted_row.
  destruct u as [o n e lm ls ro]. simpl in *.
  destruct n, e, lm, ls, ro; simpl;
    destruct (String.eqb_spec o owner); simpl;
    repeat split; intros; try congruence.
Qed.

Lemma user_of_openId (o : string) (l : list Users.Row) (r : Users.Row) :
  user_of o l = Some r -> In r l /\ Users.openId r = o.
Proof.
  unfold user_of. intros H. apply find_some in H. destruct H as [Hin He].
  apply String.eqb_eq in He. auto.
Qed.

(** X12. A user that was upserted can be looked up: when the handle is there
    and the two statements are answered, [upsertUser] returns and a
    following [getUserByOpenId] for the openId gives a row with that openId
    that carries every property the user had (null as NULL); a user without
    a role who has the owner's openId is an admin. *)
Theorem getUserByOpenId_after_upsertUser (u : Users.InsertUser)
    (st : Users.State) :
  Users.in_openId u <> EmptyString ->
  available (Users.process st) = true ->
  fault_at 0 (Users.process st) = false ->
  fault_at 1 (Users.process st) = false ->
  fst (Users.upsertUser u st) = Ok tt
  /\ exists r,
       fst (Users.getUserByOpenId (Users.in_openId u)
                                  (snd (Users.upsertUser u st)))
       = Ok (Some r)
       /\ carries u (Users.ownerOpenId st) r.
Proof.
  intros Hne Ha F0 F1. destruct (available_handle _ Ha) as [d Hd].
  rewrite (upsertUser_run u st Hne), Hd, F0. cbv zeta. simpl fst; simpl snd.
  split; [reflexivity|].
  rewrite getUserByOpenId_run.
  cbn [Users.process Users.with_users Users.sent Users.with_process
       Users.users].
  change (handle _) with (Some d).
  assert (Hf : fault_at 0
                 {| DATABASE_URL := DATABASE_URL (Users.process st);
                    drizzle_throws := drizzle_throws (Users.process st);
                    _db := Some d;
                    store := store (Users.process st);
                    faults := tl (faults (Users.process st));
                    trace := trace (Users.process st) |} = false).
  { rewrite <- F1. unfold fault_at. simpl.
    destruct (faults (Users.process st)); reflexivity. }
  cbn [set_db DATABASE_URL drizzle_throws _db store faults trace] in *.
  rewrite Hf. cbv zeta. simpl fst.
  unfold upsert_accepted.
  pose proof (user_of_upserted
                (Users.upsert_values u (Users.ownerOpenId st) (Users.now st))
                (Users.upsert_set u (Users.ownerOpenId st) (Users.now st))
                (Users.now st) (Users.users st) (Users.users_auto st))
    as Hrow.
  change (Users.in_openId
            (Users.upsert_values u (Users.ownerOpenId st) (Users.now st)))
    with (Users.in_openId u) in Hrow.
  rewrite Hrow. eexists. split; [reflexivity|].
  destruct (user_of (Users.in_openId u) (Users.users st)) as [r0|] eqn:Hu.
  - apply updated_row_carries. apply (user_of_openId _ _ _ Hu).
  - apply inserted_row_carries.
Qed.

Lemma getUserByOpenId_after_upsertUser_witness :
  (Users.in_openId (named_user "u-1" "Ada") <> EmptyString
   /\ available (Users.process (users_state [] 1)) = true
   /\ fault_at 0 (Users.process (users_state [] 1)) = false
   /\ fault_at 1 (Users.process (users_state [] 1)) = false)
  /\ fst (Users.upsertUser (named_user "u-1" "Ada") (users_state [] 1))
     = Ok tt
  /\ exists r,
       fst (Users.getUserByOpenId "u-1"
              (snd (Users.upsertUser (named_user "u-1" "Ada")
                                     (users_state [] 1))))
       = Ok (Some r)
       /\ carries (named_user "u-1" "Ada") "owner-1" r.
Proof.
  split; [split; [discriminate|repeat split; reflexivity]|].
  apply (getUserByOpenId_after_upsertUser
           (named_user "u-1" "Ada") (users_state [] 1)).
  - discriminate.
  - reflexivity.
  - reflexivity.
  - reflexivity.
Defined.

(** X13. [upsertUser] keeps the promises of the schema and the other users:
    in any state, whatever the handle and the fate of the statement, a
    well-formed table (unique openIds, unique ids below the counter) is well
    formed afterwards, has the same number of rows or one more, and the row
    of every other openId is what it was. *)
Theorem upsertUser_keeps_users (u : Users.InsertUser) (st : Users.State) :
  users_well_formed (Users.users st) (Users.users_auto st) ->
  users_well_formed (Users.users (snd (Users.upsertUser u st)))
                    (Users.users_auto (snd (Users.upsertUser u st)))
  /\ (List.length (Users.users st)
      <= List.length (Users.users (snd (Users.upsertUser u st)))
      <= List.length (Users.users st) + 1)%nat
  /\ forall o, o <> Users.in_openId u ->
       user_of o (Users.users (snd (Users.upsertUser u st)))
       = user_of o (Users.users st).
Proof.
  intros Hwf.
  destruct (String.eqb_spec (Users.in_openId u) EmptyString) as [E|Hne].
  - unfold Users.upsertUser. rewrite E. simpl.
    split; [exact Hwf|]. split; [lia|reflexivity].
  - rewrite (upsertUser_run u st Hne).
    destruct (handle (Users.process st)) as [d|];
      [|split; [exact Hwf|split; [simpl; lia|reflexivity]]].
    cbv zeta. destruct (fault_at 0 (Users.process st)).
    + split; [exact Hwf|]. split; [simpl; lia|reflexivity].
    + simpl snd. cbn [Users.users Users.users_auto Users.with_users].
      unfold upsert_accepted.
      split; [apply upserted_well_formed; exact Hwf|].
      split; [apply upserted_length|].
      intros o Ho. apply user_of_upserted_other. exact Ho.
Qed.

Lemma upsertUser_keeps_users_witness :
  users_well_formed
    [Users.mkRow 1 "u-1" None None None Users.user 5] 2
  /\ user_of "u-1"
       (Users.users
          (snd (Users.upsertUser
                  (named_user "u-2" "Ada")
                  (users_state
                     [Users.mkRow 1 "u-1" None None None Users.user 5] 2))))
     = Some (Users.mkRow 1 "u-1" None None None Users.user 5).
Proof.
  assert (Hwf : users_well_formed
                  [Users.mkRow 1 "u-1" None None None Users.user 5] 2).
  { constructor; simpl.
    - repeat constructor. simpl. tauto.
    - repeat constructor. simpl. tauto.
    - intros r [<-|[]]. simpl. lia. }
  split; [exact Hwf|].
  destruct (upsertUser_keeps_users
              (named_user "u-2" "Ada")
              (users_state
                 [Users.mkRow 1 "u-1" None None None Users.user 5] 2) Hwf)
    as (_ & _ & Hother).
  rewrite Hother; [reflexivity|discriminate].
Defined.

Lemma upsertUser_accepted (u : Users.InsertUser) (st : Users.State) :
  Users.in_openId u <> EmptyString ->
  available (Users.process st) = true ->
  fault_at 0 (Users.process st) = false ->
  fst (Users.upsertUser u st) = Ok tt
  /\ Users.users (snd (Users.upsertUser u st)) = fst (upsert_accepted u st)
  /\ Users.users_auto (snd (Users.upsertUser u st))
     = snd (upsert_accepted u st).
Proof.
  intros Hne Ha F0. destruct (available_handle _ Ha) as [d Hd].
  rewrite (upsertUser_run u st Hne), Hd, F0. repeat split; reflexivity.
Qed.

(** X14. An upsert of an openId that has a row writes what the user says and
    nothing else: when the statement is accepted, the row keeps its id, the
    table its size, and every column whose property is absent its value; the
    role of a user who is not the owner is kept; lastSignedIn is kept too,
    unless the user says nothing but the openId and is not the owner, in
    which case it becomes the current time. *)
Theorem upsertUser_updates_only_what_is_said (u : Users.InsertUser)
    (st : Users.State) (r0 : Users.Row) :
  Users.in_openId u <> EmptyString ->
  available (Users.process st) = true ->
  fault_at 0 (Users.process st) = false ->
  user_of (Users.in_openId u) (Users.users st) = Some r0 ->
  exists r,
    user_of (Users.in_openId u) (Users.users (snd (Users.upsertUser u st)))
    = Some r
    /\ Users.id r = Users.id r0
    /\ List.length (Users.users (snd (Users.upsertUser u st)))
       = List.length (Users.users st)
    /\ (Users.in_name u = Users.undefined -> Users.name r = Users.name r0)
    /\ (Users.in_email u = Users.undefined ->
        Users.email r = Users.email r0)
    /\ (Users.in_loginMethod u = Users.undefined ->
        Users.loginMethod r = Users.loginMethod r0)
    /\ (Users.in_role u = Users.undefined ->
        Users.in_openId u <> Users.ownerOpenId st ->
        Users.role r = Users.role r0)
    /\ (Users.in_lastSignedIn u = Users.undefined ->
        Users.lastSignedIn r
        = if only_openId u
             && negb (String.eqb (Users.in_openId u) (Users.ownerOpenId st))
          then Users.now st else Users.lastSignedIn r0).
Proof.
  intros Hne Ha F0 Hu.
  destruct (upsertUser_accepted u st Hne Ha F0) as (_ & -> & _).
  unfold upsert_accepted.
  pose proof (user_of_upserted
                (Users.upsert_values u (Users.ownerOpenId st) (Users.now st))
                (Users.upsert_set u (Users.ownerOpenId st) (Users.now st))
                (Users.now st) (Users.users st) (Users.users_auto st))
    as Hrow.
  change (Users.in_openId
            (Users.upsert_values u (Users.ownerOpenId st) (Users.now st)))
    with (Users.in_openId u) in Hrow.
  rewrite Hu in Hrow. rewrite Hrow. eexists. split; [reflexivity|].
  split; [reflexivity|]. split.
  - unfold Users.upserted.
    change (Users.in_openId
              (Users.upsert_values u (Users.ownerOpenId st) (Users.now st)))
      with (Users.in_openId u).
    destruct (Users.has_openId (Users.in_openId u) (Users.users st)) eqn:H.
    + simpl. apply length_map.
    + rewrite (has_openId_find _ _ H) in Hu. discriminate.
  - unfold Users.upsert_set, Users.upsert_role, Users.no_keys,
      Users.updated_row, only_openId.
    destruct u as [o n e lm ls ro]. simpl in *.
    destruct n, e, lm, ls, ro; simpl;
      destruct (String.eqb_spec o (Users.ownerOpenId st)); simpl;
      repeat split; intros; congruence.
Qed.

Lemma upsertUser_updates_only_what_is_said_witness :
  (Users.in_openId (bare_user "u-1") <> EmptyString
   /\ user_of "u-1"
        (Users.users
           (users_state
              [Users.mkRow 1 "u-1" (Some "Ada"%string) None None
                           Users.admin 5] 2))
      = Some (Users.mkRow 1 "u-1" (Some "Ada"%string) None None
                          Users.admin 5))
  /\ user_of "u-1"
       (Users.users
          (snd (Users.upsertUser
                  (bare_user "u-1")
                  (users_state
                     [Users.mkRow 1 "u-1" (Some "Ada"%string) None None
                                  Users.admin 5] 2))))
     = Some (Users.mkRow 1 "u-1" (Some "Ada"%string) None None
                         Users.admin 1000).
Proof.
  split; [split; [discriminate|reflexivity]|].
  destruct (upsertUser_updates_only_what_is_said
              (bare_user "u-1")
              (users_state
                 [Users.mkRow 1 "u-1" (Some "Ada"%string) None None
                              Users.admin 5] 2)
              (Users.mkRow 1 "u-1" (Some "Ada"%string) None None
                           Users.admin 5))
    as (r & Hr & _); [discriminate|reflexivity|reflexivity|reflexivity|].
  reflexivity.
Defined.

(** X15. An upsert of an openId that has no row adds one row, with the next
    id, and the counter goes up by one; a column whose property is absent
    gets its default: NULL for the texts, "user" for the role of a user who
    is not the owner, the current time for lastSignedIn. *)
Theorem upsertUser_inserts_with_defaults (u : Users.InsertUser)
    (st : Users.State) :
  Users.in_openId u <> EmptyString ->
  available (Users.process st) = true ->
  fault_at 0 (Users.process st) = false ->
  user_of (Users.in_openId u) (Users.users st) = None ->
  exists r,
    Users.users (snd (Users.upsertUser u st)) = Users.users st ++ [r]
    /\ Users.users_auto (snd (Users.upsertUser u st))
       = Users.users_auto st + 1
    /\ Users.id r = Users.users_auto st
    /\ carries u (Users.ownerOpenId st) r
    /\ (Users.in_name u = Users.undefined -> Users.name r = None)
    /\ (Users.in_email u = Users.undefined -> Users.email r = None)
    /\ (Users.in_loginMethod u = Users.undefined ->
        Users.loginMethod r = None)
    /\ (Users.in_role u = Users.undefined ->
        Users.in_openId u <> Users.ownerOpenId st ->
        Users.role r = Users.user)
    /\ (Users.in_lastSignedIn u = Users.undefined ->
        Users.lastSignedIn r = Users.now st).
Proof.
  intros Hne Ha F0 Hu.
  destruct (upsertUser_accepted u st Hne Ha F0) as (_ & -> & ->).
  unfold upsert_accepted, Users.upserted.
  change (Users.in_openId
            (Users.upsert_values u (Users.ownerOpenId st) (Users.now st)))
    with (Users.in_openId u).
  destruct (Users.has_openId (Users.in_openId u) (Users.users st)) eqn:H.
  - destruct (has_openId_found _ _ H) as (r & Hr). congruence.
  - simpl fst; simpl snd. eexists. split; [reflexivity|].
    split; [reflexivity|]. split; [reflexivity|].
    split; [apply inserted_row_carries|].
    unfold Users.upsert_values, Users.upsert_role, Users.inserted_row.
    destruct u as [o n e lm ls ro]. simpl in *.
    destruct n, e, lm, ls, ro; simpl;
      destruct (String.eqb_spec o (Users.ownerOpenId st)); simpl;
      repeat split; intros; congruence.
Qed.

Lemma upsertUser_inserts_with_defaults_witness :
  (Users.in_openId (bare_user "owner-1") <> EmptyString
   /\ user_of "owner-1" (Users.users (users_state [] 7)) = None)
  /\ Users.users (snd (Users.upsertUser (bare_user "owner-1")
                                        (users_state [] 7)))
     = [Users.mkRow 7 "owner-1" None None None Users.admin 1000].
Proof.
  split; [split; [discriminate|reflexivity]|].
  destruct (upsertUser_inserts_with_defaults
              (bare_user "owner-1") (users_state [] 7))
    as (r & Hr & _); [discriminate|reflexivity|reflexivity|reflexivity|].
  reflexivity.
Defined.

(** X16. When [upsertUser] writes nothing. With an empty openId it throws
    its own error before anything else happens, the state being the one
    before the call. With an openId but no handle it returns as if all were
    well, and nothing was written or sent. With a handle and a statement that
    fails it rethrows the driver's error, and the table is as before. *)
Theorem upsertUser_writes_nothing_unless_accepted (u : Users.InsertUser)
    (st : Users.State) :
  (Users.in_openId u = EmptyString ->
   Users.upsertUser u st
   = (Throw (JsError Users.openId_required_message), st))
  /\ (Users.in_openId u <> EmptyString ->
      available (Users.process st) = false ->
      fst (Users.upsertUser u st) = Ok tt
      /\ Users.users (snd (Users.upsertUser u st)) = Users.users st
      /\ Users.log (snd (Users.upsertUser u st)) = Users.log st)
  /\ (Users.in_openId u <> EmptyString ->
      available (Users.process st) = true ->
      fault_at 0 (Users.process st) = true ->
      fst (Users.upsertUser u st) = Throw (DriverError ER_STORE_FAILURE)
      /\ Users.users (snd (Users.upsertUser u st)) = Users.users st).
Proof.
  split; [|split].
  - intros E. unfold Users.upsertUser. rewrite E. reflexivity.
  - intros Hne Ha. rewrite (upsertUser_run u st Hne).
    unfold available in Ha.
    destruct (handle (Users.process st)); [discriminate|].
    repeat split; reflexivity.
  - intros Hne Ha F0. destruct (available_handle _ Ha) as [d Hd].
    rewrite (upsertUser_run u st Hne), Hd, F0. split; reflexivity.
Qed.

(** X17. What [getUserByOpenId] answers: without a handle, no user; with a
    handle and a statement that fails, the driver's error, thrown to the
    caller (this read has no catch); otherwise the row with that openId, or
    no user if there is none. It never changes the table. *)
Theorem getUserByOpenId_answers (o : string) (st : Users.State) :
  fst (Users.getUserByOpenId o st)
  = (if available (Users.process st)
     then if fault_at 0 (Users.process st)
          then Throw (DriverError ER_STORE_FAILURE)
          else Ok (user_of o (Users.users st))
     else Ok None)
  /\ Users.users (snd (Users.getUserByOpenId o st)) = Users.users st
  /\ Users.users_auto (snd (Users.getUserByOpenId o st)) = Users.users_auto st
  /\ (forall r, user_of o (Users.users st) = Some r ->
                In r (Users.users st) /\ Users.openId r = o)
  /\ (user_of o (Users.users st) = None ->
      ~ In o (map Users.openId (Users.users st))).
Proof.
  rewrite getUserByOpenId_run. unfold available.
  split; [|split; [|split; [|split]]].
  - destruct (handle (Users.process st)); [|reflexivity].
    cbv zeta. destruct (fault_at 0 (Users.process st)); reflexivity.
  - destruct (handle (Users.process st)); [|reflexivity].
    cbv zeta. destruct (fault_at 0 (Users.process st)); reflexivity.
  - destruct (handle (Users.process st)); [|reflexivity].
    cbv zeta. destruct (fault_at 0 (Users.process st)); reflexivity.
  - intros r. apply user_of_openId.
  - intros Hn. apply has_openId_in.
    unfold Users.has_openId. unfold user_of in Hn.
    destruct (existsb _ _) eqn:He; [|reflexivity].
    destruct (existsb_find _ _ He) as (r & Hr & _). congruence.
Qed.

Lemma upsert_set_time (u : Users.InsertUser) (owner : string) (t t' : Z) :
  only_openId u = false \/ Users.in_openId u = owner ->
  Users.upsert_set u owner t' = Users.upsert_set u owner t.
Proof.
  unfold Users.upsert_set, Users.upsert_role, Users.no_keys, only_openId.
  destruct u as [o n e lm ls ro]. simpl.
  intros [H|H].
  - destruct n, e, lm, ls, ro; try discriminate; reflexivity.
  - subst owner. rewrite String.eqb_refl.
    destruct n, e, lm, ls, ro; reflexivity.
Qed.

Lemma updated_row_twice (set : Users.UpdateSet) (r : Users.Row) :
  Users.updated_row set (Users.updated_row set r) = Users.updated_row set r.
Proof.
  unfold Users.updated_row. destruct set as [n e lm ls ro]. simpl.
  destruct n, e, lm, ls, ro; reflexivity.
Qed.

Lemma updated_inserted_row (u : Users.InsertUser) (owner : string)
    (t t' auto : Z) :
  only_openId u = false \/ Users.in_openId u = owner ->
  Users.updated_row (Users.upsert_set u owner t')
    (Users.inserted_row auto t (Users.upsert_values u owner t))
  = Users.inserted_row auto t (Users.upsert_values u owner t).
Proof.
  unfold Users.upsert_set, Users.upsert_values, Users.upsert_role,
    Users.no_keys, only_openId, Users.updated_row, Users.inserted_row.
  destruct u as [o n e lm ls ro]. simpl.
  intros [H|H].
  - destruct n, e, lm, ls, ro; try discriminate;
      destruct (String.eqb o owner); reflexivity.
  - subst owner. rewrite String.eqb_refl.
    destruct n, e, lm, ls, ro; reflexivity.
Qed.

Lemma update_no_row (o : string) (set : Users.UpdateSet)
    (l : list Users.Row) :
  Users.has_openId o l = false ->
  map (fun r => if String.eqb (Users.openId r) o
                then Users.updated_row set r else r) l = l.
Proof.
  unfold Users.has_openId. induction l as [|a l IH]; simpl; [reflexivity|].
  destruct (String.eqb (Users.openId a) o); simpl; [discriminate|].
  intros H. f_equal. exact (IH H).
Qed.

Lemma has_openId_app (o : string) (l l' : list Users.Row) :
  Users.has_openId o (l ++ l')
  = Users.has_openId o l || Users.has_openId o l'.
Proof. unfold Users.has_openId. apply existsb_app. Qed.

Lemma has_openId_updated (o o' : string) (set : Users.UpdateSet)
    (l : list Users.Row) :
  Users.has_openId o'
    (map (fun r => if String.eqb (Users.openId r) o
                   then Users.updated_row set r else r) l)
  = Users.has_openId o' l.
Proof.
  unfold Users.has_openId. induction l as [|a l IH]; simpl; [reflexivity|].
  rewrite IH. destruct (String.eqb (Users.openId a) o); reflexivity.
Qed.

(** The table after the same upsert is accepted again, at any later time. *)
Lemma upserted_again (u : Users.InsertUser) (owner : string) (t t' : Z)
    (l : list Users.Row) (auto : Z) :
  only_openId u = false \/ Users.in_openId u = owner ->
  Users.upserted (Users.upsert_values u owner t') (Users.upsert_set u owner t')
    t'
    (fst (Users.upserted (Users.upsert_values u owner t)
                         (Users.upsert_set u owner t) t l auto))
    (snd (Users.upserted (Users.upsert_values u owner t)
                         (Users.upsert_set u owner t) t l auto))
  = Users.upserted (Users.upsert_values u owner t)
                   (Users.upsert_set u owner t) t l auto.
Proof.
  intros Hsays. rewrite (upsert_set_time u owner t t' Hsays).
  unfold Users.upserted.
  change (Users.in_openId (Users.upsert_values u owner t'))
    with (Users.in_openId u).
  change (Users.in_openId (Users.upsert_values u owner t))
    with (Users.in_openId u).
  destruct (Users.has_openId (Users.in_openId u) l) eqn:H;
    simpl fst; simpl snd.
  - rewrite has_openId_updated, H. f_equal.
    rewrite map_map. apply map_ext. intros r.
    destruct (String.eqb (Users.openId r) (Users.in_openId u)) eqn:E.
    + simpl Users.openId. rewrite E. apply updated_row_twice.
    + rewrite E. reflexivity.
  - rewrite has_openId_app, H. simpl.
    rewrite String.eqb_refl. simpl. f_equal.
    rewrite map_app, (update_no_row _ _ _ H). simpl.
    rewrite String.eqb_refl.
    rewrite <- (upsert_set_time u owner t t' Hsays).
    rewrite (updated_inserted_row u owner t t' auto Hsays). reflexivity.
Qed.

(** X18. The same upsert twice is the upsert once, for a user who says
    something besides the openId or is the owner: when both statements are
    accepted, the second call, at whatever time it is made, leaves the table
    and the counter as the first left them. *)
Theorem upsertUser_again_changes_nothing (u : Users.InsertUser)
    (st : Users.State) (t : Z) :
  Users.in_openId u <> EmptyString ->
  available (Users.process st) = true ->
  fault_at 0 (Users.process st) = false ->
  fault_at 1 (Users.process st) = false ->
  only_openId u = false \/ Users.in_openId u = Users.ownerOpenId st ->
  Users.users
    (snd (Users.upsertUser u (Users.at_time t (snd (Users.upsertUser u st)))))
  = Users.users (snd (Users.upsertUser u st))
  /\ Users.users_auto
       (snd (Users.upsertUser u
               (Users.at_time t (snd (Users.upsertUser u st)))))
     = Users.users_auto (snd (Users.upsertUser u st)).
Proof.
  intros Hne Ha F0 F1 Hsays.
  destruct (available_handle _ Ha) as [d Hd].
  set (st1 := Users.at_time t (snd (Users.upsertUser u st))).
  assert (H1 : Users.users st1 = fst (upsert_accepted u st)
               /\ Users.users_auto st1 = snd (upsert_accepted u st)
               /\ Users.ownerOpenId st1 = Users.ownerOpenId st
               /\ Users.now st1 = t
               /\ available (Users.process st1) = true
               /\ fault_at 0 (Users.process st1) = false).
  { unfold st1. rewrite (upsertUser_run u st Hne), Hd, F0. cbv zeta.
    simpl. repeat split; try reflexivity.
    rewrite <- F1. unfold fault_at.
    destruct (faults (Users.process st)); reflexivity. }
  destruct H1 as (Hu1 & Hauto1 & Ho1 & Hn1 & Ha1 & F01).
  destruct (upsertUser_accepted u st1 Hne Ha1 F01) as (_ & -> & ->).
  destruct (upsertUser_accepted u st Hne Ha F0) as (_ & -> & ->).
  unfold upsert_accepted at 1 3. rewrite Hu1, Hauto1, Ho1, Hn1.
  unfold upsert_accepted.
  rewrite (upserted_again u (Users.ownerOpenId st) (Users.now st) t
             (Users.users st) (Users.users_auto st) Hsays).
  split; reflexivity.
Qed.

Lemma upsertUser_again_changes_nothing_witness :
  (Users.in_openId (named_user "u-1" "Ada") <> EmptyString
   /\ only_openId (named_user "u-1" "Ada") = false)
  /\ Users.users
       (snd (Users.upsertUser (named_user "u-1" "Ada")
               (Users.at_time 2000
                  (snd (Users.upsertUser (named_user "u-1" "Ada")
                                         (users_state [] 1))))))
     = Users.users (snd (Users.upsertUser (named_user "u-1" "Ada")
                                          (users_state [] 1))).
Proof.
  split; [split; [discriminate|reflexivity]|].
  apply (upsertUser_again_changes_nothing
           (named_user "u-1" "Ada") (users_state [] 1) 2000).
  - discriminate.
  - reflexivity.
  - reflexivity.
  - reflexivity.
  - left. reflexivity.
Defined.

(* ------------------------------------------------------------------ *)
(** ** The page and the parsers *)

(** X19. The page asks the router only what its parsers accept. The
    existence query goes out only with a non-empty voter identifier, and
    [handleVote] starts the mutation only with a non-empty identifier and a
    selected id; when that id is the id of a candidate of a well-formed
    store whose ids fit the INT column, as the ids on the cards are, the
    parser of [voting.vote] accepts the input and hands on that id and
    identifier. Without a selection or an identifier no mutation starts and
    the page shows its own message. *)
Theorem page_requests_pass_the_parsers (st : Home.State) (s : Store) :
  well_formed s -> int_ids s ->
  (forall i, Home.hasVoted_query st = Some i ->
             voting.hv_voterIdentifier i <> EmptyString)
  /\ (forall c st' i,
        In c (candidates s) ->
        Home.handleVote (Home.select c st) = (st', Some i) ->
        voting.parse_vote i = Ok (Candidate.id c, Home.voterIdentifier st)
        /\ st' = Home.select c st)
  /\ (Home.nothing_selected st = true \/ Home.identified st = false ->
      Home.handleVote st = (Home.setError Home.choose_message st, None)).
Proof.
  intros Hwf Hint. split; [|split].
  - unfold Home.hasVoted_query, Home.identified. intros i.
    destruct (String.eqb_spec (Home.voterIdentifier st) EmptyString);
      simpl; [discriminate|].
    intros [= <-]. assumption.
  - intros c st' i Hin. unfold Home.handleVote, Home.identified.
    simpl Home.selectedCandidateId. simpl Home.voterIdentifier.
    pose proof (wf_candidate_range s Hwf c Hin) as Hr.
    assert (Hz : (Candidate.id c =? 0) = false) by (apply Z.eqb_neq; lia).
    destruct (String.eqb_spec (Home.voterIdentifier st) EmptyString)
      as [E|Hne]; simpl; rewrite Hz; simpl; [discriminate|].
    intros [= <- <-]. split; [|reflexivity].
    apply parse_vote_valid; [|exact Hne].
    specialize (Hint c Hin). unfold INT_MAX, MAX_SAFE_INTEGER in *. lia.
  - unfold Home.handleVote, Home.nothing_selected.
    destruct (Home.selectedCandidateId st) as [c|]; [|reflexivity].
    intros [-> | ->]; [reflexivity|].
    rewrite orb_true_r. reflexivity.
Qed.

Lemma page_requests_pass_the_parsers_witness :
  (well_formed seeded_store /\ int_ids seeded_store)
  /\ Home.handleVote
       (Home.select (Candidate.mk 1 (nth 0 candidatesList EmptyString) 0)
                    (Home.mkState "203.0.113.7" None false ""))
     = (Home.select (Candidate.mk 1 (nth 0 candidatesList EmptyString) 0)
                    (Home.mkState "203.0.113.7" None false ""),
        Some (voting.mkVoteInput (Integer 1) "203.0.113.7"))
  /\ voting.parse_vote (voting.mkVoteInput (Integer 1) "203.0.113.7")
     = Ok (1, "203.0.113.7"%string).
Proof.
  split; [split; [exact well_formed_seeded_store
                 |exact int_ids_seeded_store]|].
  split; [reflexivity|].
  destruct (page_requests_pass_the_parsers
              (Home.mkState "203.0.113.7" None false "") seeded_store
              well_formed_seeded_store int_ids_seeded_store)
    as (_ & Hvote & _).
  apply (Hvote (Candidate.mk 1 (nth 0 candidatesList EmptyString) 0)
               (Home.select
                  (Candidate.mk 1 (nth 0 candidatesList EmptyString) 0)
                  (Home.mkState "203.0.113.7" None false ""))).
  - left. reflexivity.
  - reflexivity.
Defined.

(* ------------------------------------------------------------------ *)
(** ** The first listing *)

(** X20. The first listing. On a store without candidates, with the handle
    there and the select of [initializeCandidates] answered: if the insert
    and the re-read are answered too, [voting.getCandidates] answers the
    five candidates, named as the list names them, in its order, with ids
    from the counter on, and the store is seeded; if the insert fails, the
    caller gets an empty list and no error, and the store is as before, so
    that the next call tries again. *)
Theorem first_listing (w : World) :
  available w = true -> candidates (store w) = [] -> fault_at 0 w = false ->
  (fault_at 1 w = false -> fault_at 2 w = false ->
   fst (voting.getCandidates w)
   = Ok (fresh_candidates (candidates_auto (store w)) candidatesList)
   /\ store (snd (voting.getCandidates w)) = with_seed (store w)
   /\ map Candidate.name
          (fresh_candidates (candidates_auto (store w)) candidatesList)
      = candidatesList)
  /\ (fault_at 1 w = true ->
      fst (voting.getCandidates w) = Ok []
      /\ store (snd (voting.getCandidates w)) = store w).
Proof.
  intros Ha He F0. destruct (available_handle w Ha) as [d Hd].
  unfold voting.getCandidates, uncaught, try_catch, bind.
  rewrite (initializeCandidates_on_empty w d Hd He F0).
  split.
  - intros F1 F2. rewrite F1. rewrite getAllCandidates_eq.
    change (handle (set_store _ _)) with (Some d).
    rewrite next_fault_at. autorewrite with world. rewrite F2.
    simpl fst; simpl snd. autorewrite with world.
    split; [|split; [reflexivity|apply fresh_candidates_names]].
    unfold with_seed, with_candidates. simpl candidates. rewrite He.
    reflexivity.
  - intros F1. rewrite F1. rewrite getAllCandidates_eq.
    change (handle (sent _ _)) with (Some d).
    rewrite next_fault_at. autorewrite with world.
    destruct (fault_at 2 w); simpl fst; simpl snd; autorewrite with world;
      rewrite ?He; split; reflexivity.
Qed.

Lemma first_listing_witness :
  (available (boot empty_store [false; true]) = true
   /\ candidates (store (boot empty_store [false; true])) = []
   /\ fault_at 0 (boot empty_store [false; true]) = false
   /\ fault_at 1 (boot empty_store [false; true]) = true)
  /\ fst (voting.getCandidates (boot empty_store [false; true])) = Ok []
  /\ fst (voting.getCandidates
            (snd (voting.getCandidates (boot empty_store [false; true]))))
     = Ok (candidates seeded_store).
Proof.
  split; [repeat split; reflexivity|].
  destruct (first_listing (boot empty_store [false; true]))
    as [_ Hfail]; try reflexivity.
  destruct (Hfail eq_refl) as [Hr _].
  split; [exact Hr|reflexivity].
Defined.

(* ------------------------------------------------------------------ *)
(** ** What the answers of the router mean *)

(** X21. The two reads never change the store and never make up rows, in any
    world: [hasVoted], also through the router, says true only for a voter
    identifier that has a row, and [getAllCandidates] answers the candidates
    of the store or, degraded, none. *)
Theorem reads_are_sound (w : World) (v : string) :
  (fst (hasVoted v w) = Ok false
   \/ (fst (hasVoted v w) = Ok true /\ voted v (store w) = true))
  /\ (fst (voting.hasVoted (voting.mkHasVotedInput v) w) = Ok false
      \/ (fst (voting.hasVoted (voting.mkHasVotedInput v) w) = Ok true
          /\ voted v (store w) = true))
  /\ (fst (getAllCandidates w) = Ok []
      \/ fst (getAllCandidates w) = Ok (candidates (store w)))
  /\ store (snd (hasVoted v w)) = store w
  /\ store (snd (voting.hasVoted (voting.mkHasVotedInput v) w)) = store w
  /\ store (snd (getAllCandidates w)) = store w.
Proof.
  assert (Hh : fst (hasVoted v w) = Ok false
               \/ (fst (hasVoted v w) = Ok true /\ voted v (store w) = true)).
  { rewrite hasVoted_eq.
    destruct (handle w); [destruct (next_fault w)|]; simpl; auto.
    destruct (voted v (store w)); auto. }
  split; [exact Hh|]. split.
  - unfold voting.hasVoted, procedure, voting.parse_hasVoted, uncaught,
      try_catch. simpl voting.hv_voterIdentifier.
    destruct (hasVoted v w) as [[b|e] w1]; simpl in *.
    + destruct Hh as [[= ->]|[[= ->] Hv]]; auto.
    + destruct Hh as [Hh|[Hh _]]; discriminate.
  - split.
    + rewrite getAllCandidates_eq.
      destruct (handle w); [destruct (next_fault w)|]; simpl; auto.
    + split; [apply hasVoted_store|].
      split; [apply voting_hasVoted_store|apply getAllCandidates_store].
Qed.

(** X22. Success means stored. When a process with a handle answers a
    [voting.vote] with success on a well-formed store, then, whichever
    statements failed, one row was added to [votes], for the candidate and
    the voter identifier of the input, the count of that candidate and of no
    other went up by one, and the list in the answer is the candidates after
    the vote or, if the re-read failed, empty. *)
Theorem vote_success_means_stored (i : voting.VoteInput) (w : World)
    (out : voting.VoteOutput) :
  available w = true -> well_formed (store w) ->
  fst (voting.vote i w) = Ok out ->
  exists cid,
    voting.candidateId i = Integer cid
    /\ votes (store (snd (voting.vote i w)))
       = votes (store w)
         ++ [Vote.mk (votes_auto (store w)) cid (voting.voterIdentifier i)]
    /\ candidates (store (snd (voting.vote i w)))
       = count_vote cid (candidates (store w))
    /\ voting.success out = true
    /\ (voting.out_candidates out = []
        \/ voting.out_candidates out
           = count_vote cid (candidates (store w))).
Proof.
  intros Ha Hwf. destruct (available_handle w Ha) as [d Hd].
  destruct (parse_vote_cases i) as [(z & Hp & Hz & _)|[_ (issues & _ & Hp)]];
    unfold voting.vote, procedure; rewrite Hp; [|discriminate].
  unfold try_catch, bind. simpl fst; simpl snd.
  pose proof (addVote_run z (voting.voterIdentifier i) w) as [Hr Hs].
  destruct (addVote z (voting.voterIdentifier i) w) as [[b|e] w1];
    simpl in Hr, Hs;
    [|unfold throw; destruct (includes _ _); discriminate].
  assert (Hstore : store w1
                   = with_count z
                       (match find (fun c => Candidate.id c =? z)
                                   (candidates (store w)) with
                        | Some c0 => Candidate.votes c0 + 1
                        | None => 0
                        end)
                       (with_vote z (voting.voterIdentifier i) (store w))
                   /\ exists c0,
                        find (fun c => Candidate.id c =? z)
                             (candidates (store w)) = Some c0).
  { rewrite Hs. clear Hs. revert Hr. unfold addVote_outcome. rewrite Hd.
    destruct (negb (fault_at 0 w) && voted _ (store w)); [discriminate|].
    destruct (fault_at 1 w); [discriminate|].
    destruct (fits_column _); simpl negb; cbv iota; [|discriminate].
    destruct (has_candidate z (store w)) eqn:Hc; simpl negb; cbv iota;
      [|discriminate].
    destruct (fault_at 2 w); [discriminate|].
    destruct (existsb_find _ _ Hc) as (c0 & Hfind & _).
    rewrite Hfind. destruct (fault_at 3 w); [discriminate|].
    intros _. split; [reflexivity|]. exists c0. reflexivity. }
  destruct Hstore as [Hstore (c0 & Hfind)]. rewrite Hfind in Hstore.
  assert (Hcands : candidates (store w1)
                   = count_vote z (candidates (store w))).
  { rewrite Hstore. unfold with_count, with_vote. simpl candidates.
    apply (update_is_count_vote z _ c0 (wf_candidate_ids _ Hwf) Hfind). }
  pose proof (getAllCandidates_store w1) as Hg.
  pose proof (getAllCandidates_eq w1) as He.
  destruct (getAllCandidates w1) as [[l|e] w2]; simpl in Hg.
  - unfold ret. simpl. intros [= <-]. exists z.
    split; [exact Hz|]. rewrite Hg. split; [rewrite Hstore; reflexivity|].
    split; [exact Hcands|]. split; [reflexivity|]. simpl.
    destruct (handle w1); [destruct (next_fault w1)|];
      injection He as He; subst l; auto.
  - exfalso. destruct (handle w1); [destruct (next_fault w1)|]; discriminate.
Qed.

Lemma vote_success_means_stored_witness :
  (available world_after_v1_failing_read = true
   /\ well_formed (store world_after_v1_failing_read)
   /\ succeeded (fst (voting.vote (voting.mkVoteInput (Integer 2) "v1")
                                  world_after_v1_failing_read)) = true)
  /\ exists cid,
       Integer 2 = Integer cid
       /\ votes (store (snd (voting.vote (voting.mkVoteInput (Integer 2) "v1")
                                         world_after_v1_failing_read)))
          = votes store_after_v1 ++ [Vote.mk 2 cid "v1"].
Proof.
  assert (Hwf : well_formed store_after_v1).
  { apply well_formed_with_count; [|lia].
    apply well_formed_with_vote;
      [exact well_formed_seeded_store|reflexivity]. }
  split; [split; [reflexivity|split; [exact Hwf|reflexivity]]|].
  destruct (vote_success_means_stored
              (voting.mkVoteInput (Integer 2) "v1")
              world_after_v1_failing_read
              (voting.mkVoteOutput true
                 (count_vote 2 (candidates store_after_v1))))
    as (cid & Hid & Hv & _); [reflexivity|exact Hwf|reflexivity|].
  exists cid. split; [exact Hid|exact Hv].
Defined.
